(** * EarthAfricaPage: the geo-spatial core of the animated globe

    A shallow embedding of [src/pages/EarthAfricaPage.tsx]: the
    geographic projection [latLonToVec3], the arc builder [buildArcCurve],
    the route model built inside [RoutesWow], the click handler
    [handleClickCity] and the per-frame camera easing of [CameraRig].

    Numbers.  A JavaScript [number] is an IEEE-754 double.  Every property
    below is a property of the arithmetic law the code writes down, so
    numbers are read as real numbers ([R]): rounding is left out, and
    "equal within floating tolerance" becomes equality.  [Math.sin],
    [Math.cos], [Math.sqrt] and [Math.PI] are the real [sin], [cos],
    [sqrt] and [PI]; [Math.pow] is [Math.pow] below.  [NaN] and the
    infinities have no counterpart in [R]; the theorems stay on paths
    that divide by no zero and read no coordinate off an object that has
    none (see [index]). *)

From Stdlib Require Import Reals Lra Lia List String Sorted.
From stdpp Require Import base option list strings gmap.

Local Open Scope R_scope.

(** ** JavaScript values and exceptions *)

(** The one exception the modelled code could raise is the [TypeError] of
    reading a property of [undefined].  [OutOfFuel] is not a JavaScript
    outcome: it marks a [while] loop cut off by the bound its model is
    given. *)
Inductive JsError : Type := TypeError | OutOfFuel.

Inductive Exc (A : Type) : Type :=
  | Throw (e : JsError)
  | Return (a : A).
Arguments Throw {A} e.
Arguments Return {A} a.

#[global] Instance Exc_ret : MRet Exc := @Return.
#[global] Instance Exc_bind : MBind Exc := fun A B f m =>
  match m with
  | Throw e => Throw e
  | Return a => f a
  end.

(** [arr[k]] followed by a property read: [undefined] outside the array,
    and reading a property of it throws. *)
Definition elem {A : Type} (arr : list A) (k : Z) : Exc A :=
  if (k <? 0)%Z then Throw TypeError
  else match arr !! Z.to_nat k with
       | Some v => Return v
       | None => Throw TypeError
       end.

(** [for (let i = start; i < stop; i++) body], threading the loop's
    variables [s] and stopping at the first exception. *)
Fixpoint for_loop {St : Type} (body : St -> nat -> Exc St) (start count : nat) (s : St) : Exc St :=
  match count with
  | O => Return s
  | S count' => s' ← body s start; for_loop body (S start) count' s'
  end.

Module Math.

(** [Math.pow x y] for a non-negative base.  [Rpower x y] is
    [exp (y * ln x)], which is the power for [0 < x]; at [x = 0] the
    library's [ln 0 = 0] would give [1], where JavaScript gives [0] for
    a positive exponent and [1] for the exponent [0]. *)
Definition pow (x y : R) : R :=
  if Req_dec_T x 0 then (if Req_dec_T y 0 then 1 else 0) else Rpower x y.

(** [Math.floor] *)
Definition floor (x : R) : Z := Int_part x.

End Math.

(** [a < b] on numbers, as a JavaScript boolean. *)
Definition ltb (a b : R) : bool := if Rlt_dec a b then true else false.

(** [a === b] on numbers. *)
Definition eqb (a b : R) : bool := if Req_dec_T a b then true else false.

(** ** The part of three.js the page uses

    [THREE.Vector3], [THREE.MathUtils] and [THREE.CatmullRomCurve3] are
    imported from the three.js library: their code is not under src/.
    The methods the page calls are modelled below, each with the
    arithmetic the spec names ([lerp], [normalize], distance, the
    Catmull-Rom spline) as three.js carries it out.  A JavaScript vector
    is mutable; every call site of the page works on a fresh [clone()] or
    on the live camera, so a method is a function from the receiver's old
    value to its new value. *)

Module MathUtils.

(** Modelled from the spec: [THREE.MathUtils.degToRad] (three.js, not
    under src/), the degrees-to-radians step of the spherical-to-Cartesian
    convention of spec 4.1: [degrees * (Math.PI / 180)]. *)
Definition degToRad (degrees : R) : R := degrees * (PI / 180).

End MathUtils.

Module Vector3.

(** Modelled from the spec: [THREE.Vector3] (three.js, not under src/),
    the spec's Point3D. *)
Record t : Type := new { x : R; y : R; z : R }.

(** Modelled from the spec: [v.add(w)] of three.js (not under src/), the
    sum behind the midpoint of spec 4.2. *)
Definition add (v w : t) : t := new (x v + x w) (y v + y w) (z v + z w).

(** Modelled from the spec: [v.multiplyScalar(s)] of three.js (not under
    src/), the scaling [direction * cameraDistanceConstant] and
    [position * inwardFactor] of spec 4.6. *)
Definition multiplyScalar (v : t) (s : R) : t :=
  new (x v * s) (y v * s) (z v * s).

(** Modelled from the spec: [v.divideScalar(s)] of three.js (not under
    src/), which is [v.multiplyScalar(1 / s)]; used by [normalize]. *)
Definition divideScalar (v : t) (s : R) : t := multiplyScalar v (1 / s).

(** Modelled from the spec: [v.lengthSq()] of three.js (not under src/),
    the squared Euclidean norm. *)
Definition lengthSq (v : t) : R := x v * x v + y v * y v + z v * z v.

(** Modelled from the spec: [v.length()] of three.js (not under src/),
    the Euclidean norm [|v|] of spec 8. *)
Definition length (v : t) : R := sqrt (lengthSq v).

(** Modelled from the spec: [v.normalize()] of three.js (not under src/),
    the spec's [normalize(position)].  It is
    [v.divideScalar(v.length() || 1)]: the zero vector has the falsy
    length [0] and is divided by [1]. *)
Definition normalize (v : t) : t :=
  divideScalar v (if Req_dec_T (length v) 0 then 1 else length v).

(** Modelled from the spec: [v.distanceToSquared(w)] of three.js (not
    under src/), the squared distance between two points. *)
Definition distanceToSquared (v w : t) : R :=
  let dx := x v - x w in
  let dy := y v - y w in
  let dz := z v - z w in
  dx * dx + dy * dy + dz * dz.

(** Modelled from the spec: [v.distanceTo(w)] of three.js (not under
    src/), the spec's distance-to-target. *)
Definition distanceTo (v w : t) : R := sqrt (distanceToSquared v w).

(** Modelled from the spec: [v.lerp(w, alpha)] of three.js (not under
    src/), the spec's [lerp(current, target, alpha)]:
    [this.x += (w.x - this.x) * alpha], and the same for [y] and [z]. *)
Definition lerp (v w : t) (alpha : R) : t :=
  new (x v + (x w - x v) * alpha)
      (y v + (y w - y v) * alpha)
      (z v + (z w - z v) * alpha).

(** Modelled from the spec: [tmp.subVectors(a, b)] of three.js (not
    under src/), the difference [a - b] used to mirror an end point of
    the spline. *)
Definition subVectors (a b : t) : t :=
  new (x a - x b) (y a - y b) (z a - z b).

End Vector3.

(** ** [THREE.CatmullRomCurve3] *)

Module CubicPoly.

(** Modelled from the spec: the cubic of one coordinate of the
    Catmull-Rom spline of spec 4.2 (three.js, not under src/):
    [c0 + c1*t + c2*t^2 + c3*t^3]. *)
Record t : Type := mk { c0 : R; c1 : R; c2 : R; c3 : R }.

(** Modelled from the spec: the cubic with values [x0], [x1] and
    tangents [t0], [t1] at its two ends (three.js, not under src/). *)
Definition init (x0 x1 t0 t1 : R) : t :=
  mk x0 t0 (-3 * x0 + 3 * x1 - 2 * t0 - t1) (2 * x0 - 2 * x1 + t0 + t1).

(** Modelled from the spec: the non-uniform Catmull-Rom cubic between
    [x1] and [x2], its tangents taken from the neighbours [x0], [x3] and
    the knot distances (three.js, not under src/). *)
Definition initNonuniformCatmullRom (x0 x1 x2 x3 dt0 dt1 dt2 : R) : t :=
  let t1 := (x1 - x0) / dt0 - (x2 - x0) / (dt0 + dt1) + (x2 - x1) / dt1 in
  let t2 := (x2 - x1) / dt1 - (x3 - x1) / (dt1 + dt2) + (x3 - x2) / dt2 in
  init x1 x2 (t1 * dt1) (t2 * dt1).

(** Modelled from the spec: the value of the cubic at the weight [w]
    (three.js, not under src/). *)
Definition calc (p : t) (w : R) : R :=
  let w2 := w * w in
  let w3 := w2 * w in
  c0 p + c1 p * w + c2 p * w2 + c3 p * w3.

End CubicPoly.

Module CatmullRomCurve3.

(** Modelled from the spec: [new THREE.CatmullRomCurve3(points)]
    (three.js, not under src/), the Curve of spec 4.2.  The page passes
    the control points only, so the curve is open ([closed = false]) and
    of the default type, centripetal. *)
Record t : Type := new { points : list Vector3.t }.

(** Modelled from the spec: [curve.getPoint(u)] of three.js (not under
    src/).  Spec 4.2: "construct a smooth interpolating curve through
    [a, elevatedControl, b] (a Catmull-Rom-style spline ...)", sampled at
    a fraction [u] in [0,1].  The spline is the
    open centripetal Catmull-Rom curve of three.js: the segment holding
    [u] is found with [Math.floor], its two neighbours are the adjacent
    control points or, at either end, a point mirrored through the end,
    and each coordinate is a Hermite cubic of the weight inside the
    segment.  (three.js keeps both mirrored points in one scratch
    vector; with three control points a call mirrors at one end only.) *)
Definition getPoint (curve : t) (u : R) : Exc Vector3.t :=
  let points := points curve in
  let l := Z.of_nat (List.length points) in
  let p := IZR (l - 1) * u in
  let intPoint := Math.floor p in
  let weight := p - IZR intPoint in
  let '(intPoint, weight) :=
    if eqb weight 0 && (intPoint =? l - 1)%Z
    then ((l - 2)%Z, 1) else (intPoint, weight) in
  p0 ← (if (0 <? intPoint)%Z
        then elem points (Z.rem (intPoint - 1) l)
        else first ← elem points 0; second ← elem points 1;
             mret (Vector3.add (Vector3.subVectors first second) first));
  p1 ← elem points (Z.rem intPoint l);
  p2 ← elem points (Z.rem (intPoint + 1) l);
  p3 ← (if (intPoint + 2 <? l)%Z
        then elem points (Z.rem (intPoint + 2) l)
        else last ← elem points (l - 1); before ← elem points (l - 2);
             mret (Vector3.add (Vector3.subVectors last before) last));
  let dt0 := Math.pow (Vector3.distanceToSquared p0 p1) 0.25 in
  let dt1 := Math.pow (Vector3.distanceToSquared p1 p2) 0.25 in
  let dt2 := Math.pow (Vector3.distanceToSquared p2 p3) 0.25 in
  let dt1 := if ltb dt1 0.0001 then 1 else dt1 in
  let dt0 := if ltb dt0 0.0001 then dt1 else dt0 in
  let dt2 := if ltb dt2 0.0001 then dt1 else dt2 in
  let px := CubicPoly.initNonuniformCatmullRom
              (Vector3.x p0) (Vector3.x p1) (Vector3.x p2) (Vector3.x p3)
              dt0 dt1 dt2 in
  let py := CubicPoly.initNonuniformCatmullRom
              (Vector3.y p0) (Vector3.y p1) (Vector3.y p2) (Vector3.y p3)
              dt0 dt1 dt2 in
  let pz := CubicPoly.initNonuniformCatmullRom
              (Vector3.z p0) (Vector3.z p1) (Vector3.z p2) (Vector3.z p3)
              dt0 dt1 dt2 in
  mret (Vector3.new (CubicPoly.calc px weight) (CubicPoly.calc py weight)
                    (CubicPoly.calc pz weight)).

(** Modelled from the spec: [curve.getPoints(divisions)] of three.js
    (not under src/), the [samplePoints(count)] of spec 4.2: the points
    at [d / divisions] for [d = 0 .. divisions]. *)
Definition getPoints (curve : t) (divisions : nat) : Exc (list Vector3.t) :=
  mapM (fun d : nat => getPoint curve (INR d / INR divisions))
       (seq 0 (divisions + 1)).

(** Modelled from the spec: one turn of the loop of [getLengths]
    (three.js, not under src/); the loop's variables are the cache, the
    running sum and the last point. *)
Definition lengthsStep (curve : t) (divisions : nat)
    (vars : list R * R * Vector3.t) (p : nat) : Exc (list R * R * Vector3.t) :=
  let '(cache, sum, last) := vars in
  current ← getPoint curve (INR p / INR divisions);
  let sum := sum + Vector3.distanceTo current last in
  mret (cache ++ [sum], sum, current).

(** Modelled from the spec: [curve.getLengths(divisions)] of three.js
    (not under src/): the cumulated chord lengths of the polyline through
    the points at [p / divisions]. *)
Definition getLengths (curve : t) (divisions : nat) : Exc (list R) :=
  last ← getPoint curve 0;
  vars ← for_loop (lengthsStep curve divisions) 1 divisions ([0], 0, last);
  mret vars.1.1.

(** Modelled from the spec: the binary search of [getUtoTmapping]
    (three.js, not under src/):
    [while (low <= high) { i = Math.floor(low + (high - low) / 2); ... }],
    returning the final [high].  [fuel] bounds the number of turns. *)
Fixpoint search (arcLengths : list R) (targetArcLength : R) (fuel : nat)
    (low high : Z) : Exc Z :=
  match fuel with
  | O => Throw OutOfFuel
  | S fuel =>
    if (low <=? high)%Z then
      let i := (low + (high - low) / 2)%Z in
      length_i ← elem arcLengths i;
      let comparison := length_i - targetArcLength in
      if ltb comparison 0 then search arcLengths targetArcLength fuel (i + 1) high
      else if ltb 0 comparison then search arcLengths targetArcLength fuel low (i - 1)
      else Return i
    else Return high
  end.

(** Modelled from the spec: [curve.getUtoTmapping(u)] of three.js (not
    under src/), with the default 200 arc-length divisions: the parameter
    at which the polyline has covered the fraction [u] of its length. *)
Definition getUtoTmapping (curve : t) (u : R) : Exc R :=
  arcLengths ← getLengths curve 200;
  let il := Z.of_nat (List.length arcLengths) in
  whole ← elem arcLengths (il - 1);
  let targetArcLength := u * whole in
  i ← search arcLengths targetArcLength (List.length arcLengths) 0 (il - 1);
  length_i ← elem arcLengths i;
  if eqb length_i targetArcLength then mret (IZR i / IZR (il - 1))
  else
    let lengthBefore := length_i in
    lengthAfter ← elem arcLengths (i + 1);
    let segmentLength := lengthAfter - lengthBefore in
    let segmentFraction := (targetArcLength - lengthBefore) / segmentLength in
    mret ((IZR i + segmentFraction) / IZR (il - 1)).

(** Modelled from the spec: [pointAtFraction(u)] of spec 4.2, which the
    page calls as [curve.getPointAt(u)] of three.js (not under src/): the
    point of the spline at the parameter [getUtoTmapping(u)], so that [u]
    runs along the arc at constant speed. *)
Definition getPointAt (curve : t) (u : R) : Exc Vector3.t :=
  t ← getUtoTmapping curve u;
  getPoint curve t.

End CatmullRomCurve3.

(** The point [curve.getPoint(k / divisions)], where that call returns. *)
Definition sample (curve : CatmullRomCurve3.t) (divisions k : nat) : Vector3.t :=
  match CatmullRomCurve3.getPoint curve (INR k / INR divisions) with
  | Return v => v
  | Throw _ => Vector3.new 0 0 0
  end.

(** The length of the polyline through [pt 0], ..., [pt k]. *)
Fixpoint chordSum (pt : nat -> Vector3.t) (k : nat) : R :=
  match k with
  | O => 0
  | S k' => chordSum pt k' + Vector3.distanceTo (pt k) (pt k')
  end.

(** ** GEO: villes + route *)

Record City : Type := mkCity { lat : R; lon : R }.

Definition CITY : gmap string City :=
  list_to_map
    [ ("Lome"%string, mkCity 6.1319 1.2228);
      ("Libreville"%string, mkCity 0.4162 9.4673);
      ("Abuja"%string, mkCity 9.0765 7.3986);
      ("Lagos"%string, mkCity 6.5244 3.3792);
      ("Abidjan"%string, mkCity 5.3599 (-4.0083));
      ("Pretoria"%string, mkCity (-25.7479) 28.2293);
      ("Cotonou"%string, mkCity 6.3703 2.3912);
      ("Accra"%string, mkCity 5.6037 (-0.187));
      ("Paris"%string, mkCity 48.8566 2.3522);
      ("Lille"%string, mkCity 50.6292 3.0573);
      ("Nice"%string, mkCity 43.7102 7.262);
      ("Marseille"%string, mkCity 43.2965 5.3698);
      ("Istanbul"%string, mkCity 41.0082 28.9784);
      ("Montreal"%string, mkCity 45.5017 (-73.5673));
      ("Stuttgart"%string, mkCity 48.7758 9.1829);
      ("Bruxelles"%string, mkCity 50.8503 4.3517);
      ("Rio de Janeiro"%string, mkCity (-22.9068) (-43.1729));
      ("Moscow"%string, mkCity 55.7558 37.6173);
      ("New York"%string, mkCity 40.7128 (-74.006));
      ("Dubai"%string, mkCity 25.2048 55.2708) ].

Definition ROUTE : list string :=
  [ "Lome"; "Libreville"; "Abuja"; "Lagos"; "Abidjan"; "Pretoria";
    "Cotonou"; "Accra"; "Paris"; "Lille"; "Nice"; "Marseille"; "Istanbul";
    "Montreal"; "Stuttgart"; "Bruxelles"; "New York"; "Rio de Janeiro";
    "Dubai"; "Moscow" ]%string.

(** ** GEO: [latLonToVec3] *)

Definition latLonToVec3 (lat lon radius : R) : Vector3.t :=
  let phi := MathUtils.degToRad (90 - lat) in
  let theta := MathUtils.degToRad (lon + 180) in
  let x := - radius * sin phi * cos theta in
  let z := radius * sin phi * sin theta in
  let y := radius * cos phi in
  Vector3.new x y z.

(** [buildArcCurve(a, b, lift)] *)
Definition buildArcCurve (a b : Vector3.t) (lift : R) : CatmullRomCurve3.t :=
  let mid := Vector3.multiplyScalar (Vector3.add a b) 0.5 in
  let up := Vector3.multiplyScalar (Vector3.normalize mid)
                                   (Vector3.length mid * (1 + lift)) in
  CatmullRomCurve3.new [a; up; b].

(** ** Routes: the arc list of [RoutesWow] *)

Record Arc : Type := mkArc {
  key : string;
  curve : CatmullRomCurve3.t;
  points : list Vector3.t;
  phase : R
}.

(** A string that may be [undefined], used as a property key or inside a
    template literal. *)
Definition toString (s : option string) : string :=
  match s with
  | Some v => v
  | None => "undefined"
  end.

(** The property names every object inherits from [Object.prototype];
    [table[name]] finds the inherited member under such a name when the
    table holds no entry of its own for it. *)
Definition Object_prototype : list string :=
  [ "constructor"; "hasOwnProperty"; "isPrototypeOf"; "propertyIsEnumerable";
    "toLocaleString"; "toString"; "valueOf"; "__proto__";
    "__defineGetter__"; "__defineSetter__"; "__lookupGetter__";
    "__lookupSetter__" ]%string.

(** [table[name]] on a [Record<string, ...>], for a name outside
    [Object_prototype]: the table's own entry, or [undefined].  Under a
    name of [Object_prototype] that the table does not hold, JavaScript
    finds the inherited member instead, a function or an object: it is
    truthy and has no [lat] and no [lon], so the code goes on with [NaN]
    coordinates, which [R] does not hold.  [index] reads such a name as
    [undefined]; a theorem whose statement depends on the difference
    assumes the names it needs to be outside [Object_prototype]. *)
Definition index {V : Type} (table : gmap string V) (name : option string) : option V :=
  table !! toString name.

(** [!v] for a value that is either an object or [undefined]. *)
Definition falsy {V : Type} (v : option V) : bool :=
  match v with
  | Some _ => false
  | None => true
  end.

(** [v.field]: reading a property of [undefined] throws. *)
Definition prop {V F : Type} (field : V -> F) (v : option V) : Exc F :=
  match v with
  | Some o => Return (field o)
  | None => Throw TypeError
  end.

(** One turn of the loop over [i] in [RoutesWow]'s [useMemo]; [route] and
    [table] are the globals [ROUTE] and [CITY]. *)
Definition arcStep (route : list string) (table : gmap string City) (radius : R)
    (arcs : list Arc) (i : nat) : Exc (list Arc) :=
  let A := index table (route !! i) in
  let B := index table (route !! (i + 1)%nat) in
  if falsy A || falsy B then Return arcs (* continue *)
  else
    Alat ← prop lat A; Alon ← prop lon A;
    let a := latLonToVec3 Alat Alon (radius * 1.01) in
    Blat ← prop lat B; Blon ← prop lon B;
    let b := latLonToVec3 Blat Blon (radius * 1.01) in
    let curve := buildArcCurve a b 0.32 in
    points ← CatmullRomCurve3.getPoints curve 170;
    Return (arcs ++ [mkArc (toString (route !! i) +:+ "-" +:+ toString (route !! (i + 1)%nat))
                           curve points (INR i * 0.055)]).

(** The arcs built by the loop
    [for (let i = 0; i < ROUTE.length - 1; i++)]. *)
Definition buildArcs (route : list string) (table : gmap string City) (radius : R) : Exc (list Arc) :=
  for_loop (arcStep route table radius) 0 (List.length route - 1) [].

(** [data.arcs] of the page. *)
Definition RoutesWow_arcs (radius : R) : Exc (list Arc) := buildArcs ROUTE CITY radius.

(** ** Camera smooth controller *)

Record FocusTarget : Type := mkFocusTarget {
  camPos : Vector3.t;
  lookAt : Vector3.t
}.

(** The easing both [lerp] calls of [CameraRig] apply:
    [live.lerp(goal, 1 - Math.pow(0.001, delta))]. *)
Definition easing (delta : R) (live goal : Vector3.t) : Vector3.t :=
  Vector3.lerp live goal (1 - Math.pow 0.001 delta).

Section CameraRig.

(** The orbit-controls widget is external: of its state the page touches
    [target] only; [Widget] is whatever else the widget keeps. *)
Context {Widget : Type}.

Record OrbitControls : Type := mkOrbitControls {
  target : Vector3.t;
  widget : Widget
}.

(** [controls.update()]: the widget reads the camera position and its own
    state and rewrites both. *)
Variable update : Vector3.t -> OrbitControls -> Vector3.t * OrbitControls.

(** The mutable state the camera code reads and writes. *)
Record Scene : Type := mkScene {
  focusTarget : option FocusTarget;     (* React state of the page *)
  current : option FocusTarget;         (* [current.current] of CameraRig *)
  camera_position : Vector3.t;          (* [camera.position] *)
  controlsRef : option OrbitControls    (* [controlsRef.current] *)
}.

(** [handleClickCity(name, pos)]: computes the target and stores it with
    [setFocusTarget]. *)
Definition handleClickCity (name : string) (pos : Vector3.t) (s : Scene) : Scene :=
  let dir := Vector3.normalize pos in
  let cam := Vector3.multiplyScalar dir 3.2 in
  let lookAt := Vector3.multiplyScalar pos 0.85 in
  mkScene (Some (mkFocusTarget cam lookAt)) (current s) (camera_position s) (controlsRef s).

(** The effect of [CameraRig] on a new [target] prop:
    [if (target) current.current = target]. *)
Definition useEffect (s : Scene) : Scene :=
  match focusTarget s with
  | Some t => mkScene (focusTarget s) (Some t) (camera_position s) (controlsRef s)
  | None => s
  end.

(** A [select(name, position)] event: the click on a pin calls
    [handleClickCity]; the page re-renders with the new state and the
    effect of [CameraRig] runs. *)
Definition select (name : string) (pos : Vector3.t) (s : Scene) : Scene :=
  useEffect (handleClickCity name pos s).

(** The callback of [useFrame] in [CameraRig]. *)
Definition useFrame (delta : R) (s : Scene) : Scene :=
  match current s with
  | None => s
  | Some t =>
    let position := easing delta (camera_position s) (camPos t) in
    let '(position, controls) :=
      match controlsRef s with
      | Some controls =>
        let controls := mkOrbitControls (easing delta (target controls) (lookAt t))
                                        (widget controls) in
        let '(position, controls) := update position controls in
        (position, Some controls)
      | None => (position, None)
      end in
    let posClose := ltb (Vector3.distanceTo position (camPos t)) 0.01 in
    let tgtClose :=
      match controls with
      | Some controls => ltb (Vector3.distanceTo (target controls) (lookAt t)) 0.01
      | None => false
      end in
    mkScene (focusTarget s) (if posClose && tgtClose then None else Some t)
            position controls
  end.

(** The scene when the page mounts: [useState(null)] for the focus
    target, [useRef(null)] for [current] and for [controlsRef], and the
    camera of [<Canvas camera={{ position: [0, 0.2, 3.4] }}>]. *)
Definition initialScene : Scene := mkScene None None (Vector3.new 0 0.2 3.4) None.

(** The frames of deltas [deltas 0], [deltas 1], ..., [deltas (n - 1)]. *)
Fixpoint frames (deltas : nat -> R) (n : nat) (s : Scene) : Scene :=
  match n with
  | O => s
  | S n' => useFrame (deltas n') (frames deltas n' s)
  end.

(** [controls.update()] leaves the eased values in place in the frame
    [delta] of the scene [s]: the camera position handed to it and the
    look-at point of the controls come back unchanged (whatever else of
    the widget moves).  Nothing is asked of a frame that does not call
    [update()]. *)
Definition inPlace (delta : R) (s : Scene) : Prop :=
  match current s, controlsRef s with
  | Some t, Some controls =>
    let position := easing delta (camera_position s) (camPos t) in
    let eased := mkOrbitControls (easing delta (target controls) (lookAt t))
                                 (widget controls) in
    (update position eased).1 = position /\
    target (update position eased).2 = target eased
  | _, _ => True
  end.

End CameraRig.

Arguments OrbitControls : clear implicits.
Arguments Scene : clear implicits.

(** ** Reading the arc list

    The indices [i] at which the loop of [buildArcs] pushes an arc, read
    off the route itself: [l] is the part of the route from position
    [start] on. *)
Fixpoint segments (table : gmap string City) (start : nat) (l : list string) : list nat :=
  match l with
  | nameA :: (nameB :: _) as rest =>
    (if falsy (table !! nameA) || falsy (table !! nameB) then [] else [start])
      ++ segments table (S start) rest
  | _ => []
  end.

(** [arc] is the arc the loop pushes at turn [i]. *)
Definition arcAt (route : list string) (table : gmap string City) (radius : R)
    (i : nat) (arc : Arc) : Prop :=
  exists nameA nameB A B,
    route !! i = Some nameA /\ route !! (i + 1)%nat = Some nameB /\
    table !! nameA = Some A /\ table !! nameB = Some B /\
    key arc = (nameA +:+ "-" +:+ nameB) /\
    curve arc = buildArcCurve (latLonToVec3 (lat A) (lon A) (radius * 1.01))
                              (latLonToVec3 (lat B) (lon B) (radius * 1.01)) 0.32 /\
    CatmullRomCurve3.getPoints (curve arc) 170 = Return (points arc) /\
    List.length (points arc) = 171%nat /\
    phase arc = INR i * 0.055.

(** The time a list of frames covers. *)
Definition total (deltas : list R) : R := foldr Rplus 0 deltas.

(** The time the first [n] frames of a sequence cover. *)
Fixpoint elapsed (deltas : nat -> R) (n : nat) : R :=
  match n with
  | O => 0
  | S n' => elapsed deltas n' + deltas n'
  end.

(** ** The remainder operator *)

(** Rounding toward zero. *)
Definition trunc (x : R) : Z :=
  if Rle_dec 0 x then Int_part x else (- Int_part (- x))%Z.

(** [x % y] on numbers: [x] minus the multiple of [y] that leaves a
    remainder with the sign of [x]. *)
Definition rem (x y : R) : R := x - IZR (trunc (x / y)) * y.

(** ** Routes: the pins of [RoutesWow] *)

Module Pin.

Record t : Type := new { name : string; pos : Vector3.t }.

End Pin.

(** [new Set(names)], read in insertion order: each value is added
    unless the set holds it already. *)
Fixpoint setAdd (seen names : list string) : list string :=
  match names with
  | [] => seen
  | name :: rest => setAdd (if decide (name ∈ seen) then seen else seen ++ [name]) rest
  end.

(** [Array.from(new Set(names))] *)
Definition uniqueNames (names : list string) : list string := setAdd [] names.

(** [data.pins]: [Array.from(new Set(ROUTE)).map(...).filter(Boolean)];
    the callback returns [null] for a name the table does not hold. *)
Definition buildPins (route : list string) (table : gmap string City) (radius : R)
    : list Pin.t :=
  omap (fun name =>
          match index table (Some name) with
          | None => None
          | Some c => Some (Pin.new name (latLonToVec3 (lat c) (lon c) (radius * 1.012)))
          end)
       (uniqueNames route).

(** ** Routes: the frame callback of [RoutesWow] *)

Module Mesh.

(** Of a rendered mesh, what the frame callbacks write: its position, the
    scalar of [scale.setScalar] and the opacity of its material. *)
Record t : Type := new { position : Vector3.t; scale : R; opacity : R }.

End Mesh.

(** The material of a dashed line; [dashOffset] is [None] when
    [typeof m.dashOffset] is not ["number"]. *)
Record LineMaterial : Type := mkLineMaterial { dashOffset : option R }.

(** The first loop: [if (m && typeof m.dashOffset === "number")
    m.dashOffset -= delta * 0.42], for every slot of [dashMats.current]. *)
Definition dashFrame (delta : R) (dashMats : list (option LineMaterial))
    : list (option LineMaterial) :=
  (fun m => match m with
            | Some (mkLineMaterial (Some offset)) =>
              Some (mkLineMaterial (Some (offset - delta * 0.42)))
            | _ => m
            end) <$> dashMats.

Definition offsets : list R := [0; 0.018; 0.036].

(** One turn of the loop over [k]: the marker [k] of the comet on arc
    [i] is placed, sized and shaded; a missing mesh is skipped. *)
Definition markerStep (t : R) (i : nat) (arc : Arc) (base : R)
    (trail : list (option Mesh.t)) (k : nat) : Exc (list (option Mesh.t)) :=
  match trail !! k with
  | Some (Some mesh) =>
    offset ← elem offsets (Z.of_nat k);
    let u := rem (base - offset + 1) 1 in
    position ← CatmullRomCurve3.getPointAt (curve arc) u;
    let head := 0.010 in
    let s := head - INR k * 0.0025 + sin (t * 6 + INR i) * 0.001 in
    Return (<[k := Some (Mesh.new position (Rmax 0.003 s)
                           (if (k =? 0)%nat then 0.95
                            else if (k =? 1)%nat then 0.55 else 0.25))]> trail)
  | _ => Return trail (* continue *)
  end.

(** One turn of the loop over the arcs: a missing trail is skipped. *)
Definition cometStep (t : R) (arcs : list Arc)
    (dots : list (option (list (option Mesh.t)))) (i : nat)
    : Exc (list (option (list (option Mesh.t)))) :=
  match dots !! i with
  | Some (Some trail) =>
    arc ← elem arcs (Z.of_nat i);
    let base := rem (t * 0.09 + phase arc) 1 in
    trail ← for_loop (markerStep t i arc base) 0 (List.length offsets) trail;
    Return (<[i := Some trail]> dots)
  | _ => Return dots (* continue *)
  end.

(** The second loop, over [data.arcs]. *)
Definition cometFrame (t : R) (arcs : list Arc)
    (dots : list (option (list (option Mesh.t))))
    : Exc (list (option (list (option Mesh.t)))) :=
  for_loop (cometStep t arcs) 0 (List.length arcs) dots.

(** One turn of the third loop: the pin [i] pulses; a missing mesh is
    skipped. *)
Definition pinStep (t : R) (pinsRef : list (option Mesh.t)) (i : nat)
    : list (option Mesh.t) :=
  match pinsRef !! i with
  | Some (Some pin) =>
    let s := 0.008 + sin (t * 2.8 + INR i) * 0.0016 in
    <[i := Some (Mesh.new (Mesh.position pin) s (Mesh.opacity pin))]> pinsRef
  | _ => pinsRef (* continue *)
  end.

(** The third loop, over [data.pins]. *)
Definition pinFrame (t : R) (pins : list Pin.t) (pinsRef : list (option Mesh.t))
    : list (option Mesh.t) :=
  foldl (pinStep t) pinsRef (seq 0 (List.length pins)).

(** The refs of [RoutesWow]. *)
Record Refs : Type := mkRefs {
  dashMats : list (option LineMaterial);
  dots : list (option (list (option Mesh.t)));
  pinsRef : list (option Mesh.t)
}.

(** The callback of [useFrame] in [RoutesWow]; [t] is
    [state.clock.elapsedTime]. *)
Definition RoutesWow_useFrame (t delta : R) (arcs : list Arc) (pins : list Pin.t)
    (refs : Refs) : Exc Refs :=
  let dashMats := dashFrame delta (dashMats refs) in
  dots ← cometFrame t arcs (dots refs);
  Return (mkRefs dashMats dots (pinFrame t pins (pinsRef refs))).

(** A trail before and after a frame: the same meshes present. *)
Definition sameMeshes (old new : list (option Mesh.t)) : Prop :=
  Forall2 (fun mesh mesh' => is_Some mesh <-> is_Some mesh') old new.

(** [dots.current] before and after a frame: the same trails present,
    each with the same meshes present. *)
Definition sameTrails (old new : list (option (list (option Mesh.t)))) : Prop :=
  Forall2 (option_Forall2 sameMeshes) old new.

(** ** Halo pulsant Afrique *)

(** The callback of [useFrame] in [AfricaHalo], on the ring mesh. *)
Definition AfricaHalo_useFrame (t : R) (ring : Mesh.t) : Mesh.t :=
  let s := 1 + sin (t * 2.2) * 0.06 in
  Mesh.new (Mesh.position ring) s (0.18 + (sin (t * 2.2) * 0.04 + 0.04)).

(** ** Terre + routes + halo *)

Module Euler.

(** The three angles of a [THREE.Euler]. *)
Record t : Type := new { x : R; y : R; z : R }.

End Euler.

Definition initialRotation : Euler.t := Euler.new 0.18 1.85 0.

(** The callback of [useFrame] in [EarthGroup], on the rotation of the
    group; [now] is [performance.now()]. *)
Definition EarthGroup_useFrame (delta now : R) (rotation : Euler.t) : Euler.t :=
  let y := Euler.y rotation + delta * 0.12 in
  let t := now * 0.001 in
  Euler.new (Euler.x initialRotation + sin (t * 0.35) * 0.03) y (sin (t * 0.25) * 0.02).

(** The group after the frames [(delta, now)] of a list, oldest first. *)
Definition EarthGroup_frames (ticks : list (R * R)) (rotation : Euler.t) : Euler.t :=
  foldl (fun r tick => EarthGroup_useFrame tick.1 tick.2 r) rotation ticks.

(** ** AUDIO: Play/Pause + Volume *)

Module Audio.

(** Of the [HTMLAudioElement], what the hook reads and writes. *)
Record Element : Type := mkElement { loop : bool; volume : R; paused : bool }.

(** The refs and states of [useIntroAudio]. *)
Record Hook : Type := mkHook {
  audioRef : option Element;
  audioReady : bool;
  isPlaying : bool;
  volumeState : R
}.

(** [useRef(null)], [useState(false)], [useState(false)],
    [useState(0.3)]. *)
Definition initial : Hook := mkHook None false false 0.3.

(** The first effect: [new Audio("/intro.mp3")], paused, with
    [a.loop = true] and [a.volume = volume]. *)
Definition mount (h : Hook) : Hook :=
  mkHook (Some (mkElement true (volumeState h) true))
         (audioReady h) (isPlaying h) (volumeState h).

(** The [pointerdown] listener of the second effect. *)
Definition unlock (h : Hook) : Hook :=
  mkHook (audioRef h) true (isPlaying h) (volumeState h).

(** [play]; [resolves] tells whether the promise of [a.play()] resolves:
    when it rejects, the [await] throws and [setIsPlaying] is not
    reached. *)
Definition play (resolves : bool) (h : Hook) : Hook :=
  match audioRef h with
  | None => h
  | Some a =>
    if negb (audioReady h) then h
    else if resolves
         then mkHook (Some (mkElement (loop a) (volume a) false))
                     (audioReady h) true (volumeState h)
         else h
  end.

Definition pause (h : Hook) : Hook :=
  match audioRef h with
  | None => h
  | Some a =>
    mkHook (Some (mkElement (loop a) (volume a) true))
           (audioReady h) false (volumeState h)
  end.

Definition toggle (resolves : bool) (h : Hook) : Hook :=
  if isPlaying h then pause h else play resolves h.

(** [setVol]; the element refuses a volume outside [0, 1] with an
    exception, which leaves [setVolume] unreached. *)
Definition setVol (v : R) (h : Hook) : Hook :=
  match audioRef h with
  | None => h
  | Some a =>
    if Rle_dec 0 v then
      if Rle_dec v 1 then
        mkHook (Some (mkElement (loop a) v (paused a)))
               (audioReady h) (isPlaying h) v
      else h
    else h
  end.

(** What can happen to the mounted hook. *)
Inductive Event : Type :=
  | Unlock
  | Toggle (resolves : bool)
  | SetVol (v : R).

Definition step (h : Hook) (e : Event) : Hook :=
  match e with
  | Unlock => unlock h
  | Toggle resolves => toggle resolves h
  | SetVol v => setVol v h
  end.

Definition run (events : list Event) (h : Hook) : Hook := foldl step h events.

End Audio.

(** ** Page: hover and tooltip *)

Module Hover.

(** [hoverCity], [hoverPos2D] and [document.body.style.cursor]. *)
Record t : Type := mk {
  hoverCity : option string;
  hoverPos2D : option (R * R);
  cursor : string
}.

Definition initial : t := mk None None "".

(** A name that is neither [null] nor the empty string. *)
Definition truthy (name : option string) : bool :=
  match name with
  | Some name => negb (String.eqb name "")
  | None => false
  end.

(** The [onHoverCity] the page hands to [EarthGroup]:
    [setHoverCity(name); if (!name) setHoverPos2D(null)]. *)
Definition onHoverCity (name : option string) (h : t) : t :=
  mk name (if truthy name then hoverPos2D h else None) (cursor h).

(** [onPointerOver] of the pin [p]. *)
Definition onPointerOver (p : Pin.t) (h : t) : t :=
  let h := onHoverCity (Some (Pin.name p)) h in
  mk (hoverCity h) (hoverPos2D h) "pointer".

(** [onPointerOut] of a pin. *)
Definition onPointerOut (h : t) : t :=
  let h := onHoverCity None h in
  mk (hoverCity h) (hoverPos2D h) "default".

(** [onPointerMove] of the canvas:
    [if (!hoverCity) return; setHoverPos2D({ x, y })]. *)
Definition onPointerMove (x y : R) (h : t) : t :=
  if truthy (hoverCity h) then mk (hoverCity h) (Some (x, y)) (cursor h) else h.

(** The tooltip the page renders, [hoverCity && hoverPos2D]: its text,
    [left] and [top]. *)
Definition tooltip (h : t) : option (string * R * R) :=
  match hoverCity h, hoverPos2D h with
  | Some name, Some (x, y) =>
    if truthy (Some name) then Some (name, x + 12, y - 10) else None
  | _, _ => None
  end.

Inductive Event : Type :=
  | Over (p : Pin.t)
  | Out
  | Move (x y : R).

Definition step (h : t) (e : Event) : t :=
  match e with
  | Over p => onPointerOver p h
  | Out => onPointerOut h
  | Move x y => onPointerMove x y h
  end.

Definition run (events : list Event) (h : t) : t := foldl step h events.

End Hover.

(** [onClick] of the pin [p]: [onClickCity(p.name, p.pos)], which is
    [handleClickCity]. *)
Definition onClick {Widget : Type} (p : Pin.t) (s : Scene Widget) : Scene Widget :=
  select (Pin.name p) (Pin.pos p) s.

(** * Theorems *)

Lemma lengthSq_latLonToVec3 (lat lon radius : R) :
  Vector3.lengthSq (latLonToVec3 lat lon radius) = radius * radius.
Proof.
  unfold latLonToVec3, Vector3.lengthSq; cbn.
  set (p := MathUtils.degToRad (90 - lat)).
  set (t := MathUtils.degToRad (lon + 180)).
  transitivity
    (radius * radius *
     ((sin p)² * ((sin t)² + (cos t)²) + (cos p)²)).
  - unfold Rsqr; ring.
  - rewrite (sin2_cos2 t), Rmult_1_r, (sin2_cos2 p). ring.
Qed.

(** ** The exception monad *)

Ltac exc_simpl := simpl; unfold mbind, mret; simpl.

Lemma Exc_bind_Return {A B : Type} (f : A -> Exc B) (a : A) :
  (Return a ≫= f) = f a.
Proof. reflexivity. Qed.

Lemma mapM_Return {A B : Type} (f : A -> Exc B) (l : list A) :
  Forall (fun a => exists b, f a = Return b) l ->
  exists k, mapM f l = Return k /\ List.length k = List.length l.
Proof.
  induction 1 as [|a l [b Hb] _ [k [Hk Hlen]]]; cbn.
  - exists []. split; reflexivity.
  - exists (b :: k). rewrite Hb; cbn. rewrite Hk; cbn. split; [reflexivity|].
    cbn. now rewrite Hlen.
Qed.

(** ** [Math.floor] and [Math.pow] *)

Lemma floor_bounds (r : R) : IZR (Math.floor r) <= r < IZR (Math.floor r) + 1.
Proof.
  unfold Math.floor. destruct (base_Int_part r) as [H1 H2]. lra.
Qed.

Lemma floor_IZR (k : Z) : Math.floor (IZR k) = k.
Proof.
  unfold Math.floor. symmetry. apply Int_part_spec. lra.
Qed.

Lemma pow_positive_base (b y : R) : 0 < b -> Math.pow b y = Rpower b y.
Proof.
  intros Hb. unfold Math.pow. destruct (Req_dec_T b 0); [lra | reflexivity].
Qed.

(** ** The spline through three control points *)

Section ThreePoints.

Variables a m b : Vector3.t.

Let curve3 := CatmullRomCurve3.new [a; m; b].

(** Inside [0, 1] every access of [getPoint] is inside the array. *)
Lemma getPoint_returns (u : R) :
  0 <= u <= 1 -> exists v, CatmullRomCurve3.getPoint curve3 u = Return v.
Proof.
  intros Hu. unfold CatmullRomCurve3.getPoint, curve3. cbn [CatmullRomCurve3.points List.length].
  change (Z.of_nat 3) with 3%Z. change (3 - 1)%Z with 2%Z. change (3 - 2)%Z with 1%Z.
  set (p := 2 * u).
  pose proof (floor_bounds p) as [Hlo Hhi].
  assert (Hrange : (0 <= Math.floor p <= 2)%Z).
  { split.
    - apply le_IZR. apply Rnot_lt_le. intros Hneg.
      assert (IZR (Math.floor p) <= -1) by (apply IZR_le; apply lt_IZR in Hneg; lia).
      unfold p in *. lra.
    - assert (Math.floor p < 3)%Z by (apply lt_IZR; unfold p in *; lra). lia. }
  assert (Hcases : Math.floor p = 0%Z \/ Math.floor p = 1%Z \/ Math.floor p = 2%Z) by lia.
  destruct Hcases as [H | [H | H]]; rewrite H.
  - cbn. destruct (eqb _ _); cbn; eauto.
  - cbn. destruct (eqb _ _); cbn; eauto.
  - assert (p = 2) by (rewrite H in Hlo; unfold p in *; lra).
    replace (eqb (p - 2) 0) with true.
    + cbn. eauto.
    + unfold eqb. destruct (Req_dec_T (p - 2) 0); [reflexivity | lra].
Qed.

End ThreePoints.

Lemma getPoints_returns (a m b : Vector3.t) (divisions : nat) :
  (0 < divisions)%nat ->
  exists pts,
    CatmullRomCurve3.getPoints (CatmullRomCurve3.new [a; m; b]) divisions = Return pts /\
    List.length pts = (divisions + 1)%nat.
Proof.
  intros Hpos. unfold CatmullRomCurve3.getPoints.
  destruct (mapM_Return
              (fun d : nat => CatmullRomCurve3.getPoint (CatmullRomCurve3.new [a; m; b])
                                (INR d / INR divisions))
              (seq 0 (divisions + 1))) as [pts [Hpts Hlen]].
  - apply List.Forall_forall. intros d Hd. apply in_seq in Hd.
    apply getPoint_returns.
    assert (0 < INR divisions) by (apply lt_0_INR; lia).
    assert (0 <= INR d) by apply pos_INR.
    assert (INR d <= INR divisions) by (apply le_INR; lia).
    split.
    + apply Rmult_le_pos; [assumption | left; now apply Rinv_0_lt_compat].
    + apply Rmult_le_reg_r with (INR divisions); [assumption|].
      unfold Rdiv. rewrite Rmult_assoc, Rinv_l by lra. lra.
  - exists pts. split; [exact Hpts|]. now rewrite Hlen, length_seq.
Qed.

Lemma getPoints_buildArcCurve (a b : Vector3.t) (lift : R) (divisions : nat) :
  (0 < divisions)%nat ->
  exists pts,
    CatmullRomCurve3.getPoints (buildArcCurve a b lift) divisions = Return pts /\
    List.length pts = (divisions + 1)%nat.
Proof. unfold buildArcCurve. apply getPoints_returns. Qed.

(** ** The loop of [buildArcs] *)

Section Arcs.

Variable route : list string.
Variable table : gmap string City.
Variable radius : R.

Lemma arcStep_skip (arcs : list Arc) (i : nat) :
  falsy (index table (route !! i)) || falsy (index table (route !! (i + 1)%nat)) = true ->
  arcStep route table radius arcs i = Return arcs.
Proof. intros H. unfold arcStep. now rewrite H. Qed.

Lemma arcStep_push (arcs : list Arc) (i : nat) (nameA nameB : string) :
  route !! i = Some nameA -> route !! (i + 1)%nat = Some nameB ->
  falsy (table !! nameA) || falsy (table !! nameB) = false ->
  exists arc, arcStep route table radius arcs i = Return (arcs ++ [arc]) /\
              arcAt route table radius i arc.
Proof.
  intros Hi Hj Hres. unfold arcStep. rewrite Hi, Hj. unfold index; cbn [toString].
  rewrite Hres.
  destruct (table !! nameA) as [A|] eqn:HA; [|discriminate].
  destruct (table !! nameB) as [B|] eqn:HB; [|discriminate].
  cbn [prop]. rewrite !Exc_bind_Return.
  edestruct (getPoints_buildArcCurve
               (latLonToVec3 (lat A) (lon A) (radius * 1.01))
               (latLonToVec3 (lat B) (lon B) (radius * 1.01)) 0.32 170)
    as [pts [Hpts Hlen]]; [lia|].
  rewrite Hpts, Exc_bind_Return.
  eexists. split; [reflexivity|].
  exists nameA, nameB, A, B. cbn. repeat split; try assumption; try reflexivity.
Qed.

Lemma for_loop_arcs (rest : list string) :
  forall (start : nat) (arcs : list Arc),
    drop start route = rest ->
    exists new,
      for_loop (arcStep route table radius) start (List.length rest - 1) arcs
        = Return (arcs ++ new) /\
      Forall2 (arcAt route table radius) (segments table start rest) new.
Proof.
  induction rest as [|nameA rest IH]; intros start arcs Hdrop.
  - exists []. cbn. rewrite app_nil_r. split; [reflexivity | constructor].
  - destruct rest as [|nameB rest'].
    + exists []. cbn. rewrite app_nil_r. split; [reflexivity | constructor].
    + assert (Hi : route !! start = Some nameA).
      { rewrite <- (Nat.add_0_r start), <- (lookup_drop route start 0), Hdrop.
        reflexivity. }
      assert (Hj : route !! (start + 1)%nat = Some nameB).
      { rewrite <- (lookup_drop route start 1), Hdrop. reflexivity. }
      assert (Hnext : drop (S start) route = nameB :: rest').
      { change (S start) with (1 + start)%nat.
        rewrite Nat.add_comm, <- (drop_drop route 1 start), Hdrop. reflexivity. }
      assert (Hcount : (List.length (nameA :: nameB :: rest') - 1
                        = S (List.length (nameB :: rest') - 1))%nat) by (cbn; lia).
      rewrite Hcount.
      cbn [for_loop segments].
      destruct (falsy (table !! nameA) || falsy (table !! nameB)) eqn:Hres.
      * rewrite arcStep_skip
          by (rewrite Hi, Hj; unfold index; cbn [toString]; exact Hres).
        rewrite Exc_bind_Return.
        destruct (IH (S start) arcs Hnext) as [new [Hloop Hnew]].
        exists new. split; assumption.
      * destruct (arcStep_push arcs start nameA nameB Hi Hj Hres) as [arc [Hstep Harc]].
        rewrite Hstep, Exc_bind_Return.
        destruct (IH (S start) (arcs ++ [arc]) Hnext) as [new [Hloop Hnew]].
        exists (arc :: new). rewrite Hloop, <- app_assoc. split; [reflexivity|].
        cbn. constructor; assumption.
Qed.

Lemma buildArcs_spec :
  exists arcs, buildArcs route table radius = Return arcs /\
               Forall2 (arcAt route table radius) (segments table 0 route) arcs.
Proof.
  destruct (for_loop_arcs route 0 [] eq_refl) as [new [Hloop Hnew]].
  exists new. split; assumption.
Qed.

End Arcs.

(** ** The indices at which an arc is pushed *)

Section Segments.

Variable table : gmap string City.

Lemma segments_pair (start : nat) (nameA nameB : string) (rest : list string) :
  segments table start (nameA :: nameB :: rest)
    = (if falsy (table !! nameA) || falsy (table !! nameB) then [] else [start])
        ++ segments table (S start) (nameB :: rest).
Proof. reflexivity. Qed.

Lemma segments_ge (l : list string) :
  forall (start i : nat), i ∈ segments table start l -> (start <= i)%nat.
Proof.
  induction l as [|nameA [|nameB rest] IH]; intros start i Hin.
  - now apply elem_of_nil in Hin.
  - now apply elem_of_nil in Hin.
  - rewrite segments_pair in Hin. apply elem_of_app in Hin as [Hin | Hin].
    + destruct (falsy (table !! nameA) || falsy (table !! nameB)).
      * now apply elem_of_nil in Hin.
      * apply list_elem_of_singleton in Hin. lia.
    + apply IH in Hin. lia.
Qed.

Lemma segments_elem (l : list string) :
  forall (start j : nat) (nameA nameB : string),
    l !! j = Some nameA -> l !! (j + 1)%nat = Some nameB ->
    falsy (table !! nameA) || falsy (table !! nameB) = false ->
    (start + j)%nat ∈ segments table start l.
Proof.
  induction l as [|x l IH]; intros start j nameA nameB Hj Hj1 Hres; [discriminate|].
  destruct j as [|j]; cbn in Hj, Hj1.
  - injection Hj as ->. destruct l as [|y l]; [discriminate|]. injection Hj1 as ->.
    rewrite segments_pair, Hres, Nat.add_0_r. apply elem_of_app. left.
    apply list_elem_of_singleton. reflexivity.
  - destruct l as [|y l]; [discriminate|].
    rewrite segments_pair. apply elem_of_app. right.
    replace (start + S j)%nat with (S start + j)%nat by lia.
    eapply IH; eassumption.
Qed.

Lemma segments_length_resolved (l : list string) :
  forall start : nat,
    Forall (fun name => is_Some (table !! name)) l ->
    List.length (segments table start l) = (List.length l - 1)%nat.
Proof.
  induction l as [|nameA [|nameB rest] IH]; intros start Hall; try reflexivity.
  inversion Hall as [|? ? [A HA] Hrest]; subst.
  inversion Hrest as [|? ? [B HB] _]; subst.
  rewrite segments_pair, HA, HB. cbn [falsy orb].
  rewrite length_app, (IH (S start) Hrest). cbn. lia.
Qed.

Lemma segments_length_one_unresolved (pre post : list string) (bad : string) :
  forall start : nat,
    table !! bad = None ->
    Forall (fun name => is_Some (table !! name)) pre ->
    Forall (fun name => is_Some (table !! name)) post ->
    List.length (segments table start (pre ++ bad :: post))
      = ((List.length pre - 1) + (List.length post - 1))%nat.
Proof.
  intros start Hbad Hpre Hpost. revert start.
  assert (Hbase : forall start,
             List.length (segments table start (bad :: post))
               = (List.length post - 1)%nat).
  { intros start. destruct post as [|nameB rest]; [reflexivity|].
    rewrite segments_pair, Hbad. cbn [falsy orb app].
    rewrite (segments_length_resolved _ _ Hpost). reflexivity. }
  induction pre as [|nameA pre IH]; intros start.
  - cbn [app List.length]. rewrite Hbase. reflexivity.
  - inversion Hpre as [|? ? [A HA] Hpre']; subst.
    destruct pre as [|nameB pre].
    + cbn [app]. rewrite segments_pair, HA, Hbad. cbn [falsy orb app].
      rewrite Hbase. reflexivity.
    + inversion Hpre' as [|? ? [B HB] _]; subst.
      change ((nameA :: nameB :: pre) ++ bad :: post)
        with (nameA :: nameB :: (pre ++ bad :: post)).
      rewrite segments_pair, HA, HB. cbn [falsy orb].
      rewrite length_app.
      change (nameB :: pre ++ bad :: post) with ((nameB :: pre) ++ bad :: post).
      rewrite (IH Hpre' (S start)). cbn. lia.
Qed.

End Segments.

Lemma segments_sorted (table : gmap string City) (l : list string) :
  forall start : nat, StronglySorted lt (segments table start l).
Proof.
  induction l as [|nameA [|nameB rest] IH]; intros start; try constructor.
  rewrite segments_pair.
  destruct (falsy (table !! nameA) || falsy (table !! nameB)); [apply IH|].
  constructor; [apply IH|].
  apply List.Forall_forall. intros i Hi.
  apply list_elem_of_In, segments_ge in Hi. lia.
Qed.

Lemma arcAt_phases (route : list string) (table : gmap string City) (radius : R)
    (indices : list nat) (arcs : list Arc) :
  Forall2 (arcAt route table radius) indices arcs ->
  phase <$> arcs = (fun i : nat => INR i * 0.055) <$> indices.
Proof.
  induction 1 as [|i arc indices arcs Harc _ IH]; [reflexivity|].
  cbn. rewrite IH. f_equal.
  destruct Harc as (? & ? & ? & ? & _ & _ & _ & _ & _ & _ & _ & _ & Hphase).
  exact Hphase.
Qed.

Lemma phases_sorted (indices : list nat) :
  StronglySorted lt indices ->
  StronglySorted Rlt ((fun i : nat => INR i * 0.055) <$> indices).
Proof.
  induction 1 as [|i indices _ IH Hall]; cbn; constructor; [exact IH|].
  apply List.Forall_forall. intros r Hr.
  apply in_map_iff in Hr as [k [<- Hk]].
  rewrite List.Forall_forall in Hall. apply Hall in Hk.
  apply lt_INR in Hk. lra.
Qed.

Lemma sorted_NoDup (l : list R) : StronglySorted Rlt l -> NoDup l.
Proof.
  induction 1 as [|r l _ IH Hall]; constructor; [|exact IH].
  intros Hin. apply list_elem_of_In in Hin.
  rewrite List.Forall_forall in Hall. apply Hall in Hin. lra.
Qed.

(** * Route filtering *)

(** C1, amended.  Building the arc list of any route over any waypoint
    table returns without an exception.  When exactly one entry of the
    route is unresolved (the table holds no entry for it and it is not a
    name every object inherits a member for) and the table holds all the
    others, every segment that entry is an end of is skipped: one arc
    fewer than [route.length - 1] when the entry is the first or the last
    of the route, two fewer when it is interior. *)
Theorem buildArcs_unresolved_entry (route : list string) (table : gmap string City) (radius : R) :
  exists arcs,
    buildArcs route table radius = Return arcs /\
    forall (pre post : list string) (bad : string),
      route = pre ++ bad :: post ->
      table !! bad = None -> bad ∉ Object_prototype ->
      Forall (fun name => is_Some (table !! name)) (pre ++ post) ->
      ((pre = [] \/ post = []) -> (2 <= List.length route)%nat ->
       (List.length arcs + 1 = List.length route - 1)%nat) /\
      (pre <> [] -> post <> [] ->
       (List.length arcs + 2 = List.length route - 1)%nat).
Proof.
  destruct (buildArcs_spec route table radius) as [arcs [Hbuild Harcs]].
  exists arcs. split; [exact Hbuild|].
  intros pre post bad -> Hbad _ Hall.
  apply Forall_app in Hall as [Hpre Hpost].
  apply Forall2_length in Harcs.
  rewrite (segments_length_one_unresolved table pre post bad 0 Hbad Hpre Hpost) in Harcs.
  rewrite length_app in *. cbn [List.length] in *.
  split.
  - intros [-> | ->] Hlen; cbn [List.length] in *; lia.
  - intros Hpre' Hpost'.
    destruct pre; [congruence|]. destruct post; [congruence|].
    cbn [List.length] in *. lia.
Qed.

Lemma CITY_Lome : CITY !! "Lome"%string = Some (mkCity 6.1319 1.2228).
Proof. reflexivity. Defined.

Lemma CITY_Paris : CITY !! "Paris"%string = Some (mkCity 48.8566 2.3522).
Proof. reflexivity. Defined.

Lemma CITY_Nowhere : CITY !! "Nowhere"%string = None.
Proof. reflexivity. Defined.

(** The unresolved name first: the one segment it starts is skipped. *)
Lemma buildArcs_unresolved_entry_witness :
  exists arcs,
    buildArcs ["Nowhere"; "Lome"; "Paris"]%string CITY 1.25 = Return arcs /\
    (List.length arcs + 1 = 3 - 1)%nat.
Proof.
  destruct (buildArcs_unresolved_entry ["Nowhere"; "Lome"; "Paris"]%string CITY 1.25)
    as [arcs [Hbuild Hcount]].
  exists arcs. split; [exact Hbuild|].
  apply (Hcount [] ["Lome"; "Paris"]%string "Nowhere"%string).
  - reflexivity.
  - exact CITY_Nowhere.
  - refine (bool_decide_unpack _ _). vm_compute. exact I.
  - repeat constructor; eexists; [exact CITY_Lome | exact CITY_Paris].
  - left; reflexivity.
  - cbn; lia.
Defined.

(** C1 as stated fails: with the one unresolved name between two resolved
    ones, both segments are skipped and no arc is left, where the claim
    promises [route.length - 1 - 1 = 1]. *)
Lemma buildArcs_interior_unresolved :
  let route := ["Lome"; "Nowhere"; "Paris"]%string in
  CITY !! "Nowhere"%string = None /\ ("Nowhere"%string ∉ Object_prototype) /\
  is_Some (CITY !! "Lome"%string) /\ is_Some (CITY !! "Paris"%string) /\
  buildArcs route CITY 1.25 = Return [] /\
  ~ (exists arcs, buildArcs route CITY 1.25 = Return arcs /\
                  (List.length arcs + 1 = List.length route - 1)%nat).
Proof.
  assert (Hbuild : buildArcs ["Lome"; "Nowhere"; "Paris"]%string CITY 1.25 = Return []).
  { unfold buildArcs. cbn [List.length Nat.sub for_loop].
    rewrite arcStep_skip by reflexivity. rewrite Exc_bind_Return.
    rewrite arcStep_skip by reflexivity. reflexivity. }
  cbv zeta. split; [|split; [|split; [|split; [|split]]]].
  - exact CITY_Nowhere.
  - refine (bool_decide_unpack _ _). vm_compute. exact I.
  - eexists; exact CITY_Lome.
  - eexists; exact CITY_Paris.
  - exact Hbuild.
  - intros [arcs [Harcs Hlen]]. rewrite Hbuild in Harcs.
    injection Harcs as <-. cbn in Hlen. lia.
Qed.

(** A route that is the unresolved name alone has no segment to lose:
    [route.length - 1] is 0 and so is the number of arcs. *)
Lemma buildArcs_lone_unresolved (table : gmap string City) (radius : R) :
  buildArcs ["Nowhere"]%string table radius = Return [].
Proof. reflexivity. Qed.

(** The page's own route: all twenty names resolve, nineteen arcs. *)
Lemma RoutesWow_arcs_count (radius : R) :
  exists arcs, RoutesWow_arcs radius = Return arcs /\ List.length arcs = 19%nat.
Proof.
  destruct (buildArcs_spec ROUTE CITY radius) as [arcs [Hbuild Harcs]].
  exists arcs. split; [exact Hbuild|].
  apply Forall2_length in Harcs. rewrite <- Harcs.
  rewrite segments_length_resolved; [reflexivity|].
  unfold ROUTE. repeat constructor; eexists; reflexivity.
Qed.

(** * Degenerate arcs *)

Lemma buildArcs_pair (route : list string) (table : gmap string City) (radius : R)
    (i : nat) (nameA nameB : string) (A B : City) :
  route !! i = Some nameA -> route !! (i + 1)%nat = Some nameB ->
  table !! nameA = Some A -> table !! nameB = Some B ->
  exists arcs arc,
    buildArcs route table radius = Return arcs /\ arc ∈ arcs /\
    key arc = (nameA +:+ "-" +:+ nameB) /\
    curve arc = buildArcCurve (latLonToVec3 (lat A) (lon A) (radius * 1.01))
                              (latLonToVec3 (lat B) (lon B) (radius * 1.01)) 0.32 /\
    phase arc = INR i * 0.055.
Proof.
  intros Hi Hj HA HB.
  destruct (buildArcs_spec route table radius) as [arcs [Hbuild Harcs]].
  assert (Hin : (0 + i)%nat ∈ segments table 0 route).
  { eapply segments_elem; [exact Hi | exact Hj |]. now rewrite HA, HB. }
  apply list_elem_of_lookup in Hin as [k Hk].
  destruct (Forall2_lookup_l _ _ _ _ _ Harcs Hk) as [arc [Harc Hat]].
  exists arcs, arc. split; [exact Hbuild|].
  split; [eapply list_elem_of_lookup_2; exact Harc|].
  destruct Hat as (nameA' & nameB' & A' & B' & Hi' & Hj' & HA' & HB' & Hkey & Hcurve & _ & _ & Hphase).
  cbn [Nat.add] in *.
  assert (nameA' = nameA) as -> by congruence.
  assert (nameB' = nameB) as -> by congruence.
  assert (A' = A) as -> by congruence.
  assert (B' = B) as -> by congruence.
  repeat split; assumption.
Qed.

(** C2, amended.  A consecutive pair of route names that both resolve is
    given an arc also when the two endpoints are identical: the arc is the
    curve through [a, up, a], with the key and the phase of its place in
    the route, and no exception is raised. *)
Theorem buildArcs_degenerate_pair (route : list string) (table : gmap string City)
    (radius : R) (i : nat) (nameA nameB : string) (A B : City) :
  route !! i = Some nameA -> route !! (i + 1)%nat = Some nameB ->
  table !! nameA = Some A -> table !! nameB = Some B ->
  latLonToVec3 (lat A) (lon A) (radius * 1.01)
    = latLonToVec3 (lat B) (lon B) (radius * 1.01) ->
  exists arcs arc,
    buildArcs route table radius = Return arcs /\ arc ∈ arcs /\
    key arc = (nameA +:+ "-" +:+ nameB) /\
    curve arc = buildArcCurve (latLonToVec3 (lat A) (lon A) (radius * 1.01))
                              (latLonToVec3 (lat A) (lon A) (radius * 1.01)) 0.32 /\
    phase arc = INR i * 0.055.
Proof.
  intros Hi Hj HA HB Hsame.
  destruct (buildArcs_pair route table radius i nameA nameB A B Hi Hj HA HB)
    as (arcs & arc & Hbuild & Hin & Hkey & Hcurve & Hphase).
  exists arcs, arc. rewrite <- Hsame in Hcurve. repeat split; assumption.
Qed.

Lemma buildArcs_degenerate_pair_witness :
  exists arcs arc,
    buildArcs ["Lome"; "Lome"]%string CITY 1.25 = Return arcs /\ arc ∈ arcs /\
    key arc = "Lome-Lome"%string /\
    curve arc = buildArcCurve (latLonToVec3 6.1319 1.2228 (1.25 * 1.01))
                              (latLonToVec3 6.1319 1.2228 (1.25 * 1.01)) 0.32 /\
    phase arc = INR 0 * 0.055.
Proof.
  exact (buildArcs_degenerate_pair ["Lome"; "Lome"]%string CITY 1.25 0
           "Lome"%string "Lome"%string _ _ eq_refl eq_refl CITY_Lome CITY_Lome eq_refl).
Defined.

(** C2 as stated fails: the route [Lome, Lome] has one consecutive pair,
    its two endpoints are the same point, and the arc list holds an arc
    for it. *)
Lemma buildArcs_repeated_name :
  let a := latLonToVec3 6.1319 1.2228 (1.25 * 1.01) in
  exists arc,
    buildArcs ["Lome"; "Lome"]%string CITY 1.25 = Return [arc] /\
    key arc = "Lome-Lome"%string /\
    curve arc = buildArcCurve a a 0.32.
Proof.
  cbv zeta.
  destruct (buildArcs_spec ["Lome"; "Lome"]%string CITY 1.25) as [arcs [Hbuild Harcs]].
  rewrite segments_pair, CITY_Lome in Harcs. cbn [falsy orb app segments] in Harcs.
  inversion Harcs as [|i arc indices arcs' Hat Hrest]; subst.
  inversion Hrest; subst.
  exists arc. split; [exact Hbuild|].
  destruct Hat as (nameA & nameB & A & B & Hi & Hj & HA & HB & Hkey & Hcurve & _).
  injection Hi as <-. injection Hj as <-.
  rewrite CITY_Lome in HA, HB. injection HA as <-. injection HB as <-.
  split; assumption.
Qed.

(** * Comet phase staggering *)

(** C9.  The arcs of a built route carry the phases [i * 0.055], [i] the
    index in the route of the segment's first name ([segments] lists
    these indices in the order of the arcs); along the arc list the
    phases are strictly increasing, hence pairwise distinct. *)
Theorem buildArcs_phases (route : list string) (table : gmap string City) (radius : R) :
  exists arcs,
    buildArcs route table radius = Return arcs /\
    Forall2 (arcAt route table radius) (segments table 0 route) arcs /\
    phase <$> arcs = (fun i : nat => INR i * 0.055) <$> segments table 0 route /\
    StronglySorted lt (segments table 0 route) /\
    StronglySorted Rlt (phase <$> arcs) /\
    NoDup (phase <$> arcs).
Proof.
  destruct (buildArcs_spec route table radius) as [arcs [Hbuild Harcs]].
  pose proof (arcAt_phases _ _ _ _ _ Harcs) as Hphases.
  pose proof (segments_sorted table route 0) as Hsorted.
  assert (Hinc : StronglySorted Rlt (phase <$> arcs))
    by (rewrite Hphases; now apply phases_sorted).
  exists arcs. repeat split; try assumption.
  now apply sorted_NoDup.
Qed.

(** * Projection consistency *)

(** C8.  [latLonToVec3] is a function of its three arguments, and the
    point it returns lies at distance [|radius|] from the centre: at
    distance [radius] for every radius that is not negative. *)
Theorem latLonToVec3_on_sphere (lat lon radius : R) :
  (forall lat' lon' radius' : R,
      lat = lat' -> lon = lon' -> radius = radius' ->
      latLonToVec3 lat lon radius = latLonToVec3 lat' lon' radius') /\
  Vector3.length (latLonToVec3 lat lon radius) = Rabs radius /\
  (0 <= radius -> Vector3.length (latLonToVec3 lat lon radius) = radius).
Proof.
  assert (Habs : Vector3.length (latLonToVec3 lat lon radius) = Rabs radius).
  { unfold Vector3.length. rewrite lengthSq_latLonToVec3.
    apply (sqrt_Rsqr_abs radius). }
  split; [|split].
  - intros lat' lon' radius' -> -> ->. reflexivity.
  - exact Habs.
  - intros Hradius. rewrite Habs. now apply Rabs_pos_eq.
Qed.

Lemma latLonToVec3_on_sphere_witness :
  Vector3.length (latLonToVec3 6.1319 1.2228 1.25) = 1.25.
Proof.
  apply (latLonToVec3_on_sphere 6.1319 1.2228 1.25). lra.
Defined.

(** * Arc endpoint exactness *)

Section Endpoints.

Variables a m b : Vector3.t.

Lemma calc_start (x0 x1 x2 x3 dt0 dt1 dt2 : R) :
  CubicPoly.calc (CubicPoly.initNonuniformCatmullRom x0 x1 x2 x3 dt0 dt1 dt2) 0 = x1.
Proof.
  unfold CubicPoly.calc, CubicPoly.initNonuniformCatmullRom, CubicPoly.init; cbn.
  ring.
Qed.

Lemma calc_end (x0 x1 x2 x3 dt0 dt1 dt2 : R) :
  CubicPoly.calc (CubicPoly.initNonuniformCatmullRom x0 x1 x2 x3 dt0 dt1 dt2) 1 = x2.
Proof.
  unfold CubicPoly.calc, CubicPoly.initNonuniformCatmullRom, CubicPoly.init; cbn.
  ring.
Qed.

Lemma getPoint_start :
  CatmullRomCurve3.getPoint (CatmullRomCurve3.new [a; m; b]) 0 = Return a.
Proof.
  unfold CatmullRomCurve3.getPoint. cbn [CatmullRomCurve3.points List.length].
  change (Z.of_nat 3) with 3%Z. change (3 - 1)%Z with 2%Z. change (3 - 2)%Z with 1%Z.
  replace (2 * 0) with (IZR 0) by lra. rewrite floor_IZR.
  replace (0 - 0) with 0 by lra.
  rewrite andb_false_r. cbv beta iota zeta. exc_simpl.
  rewrite !calc_start. now destruct a.
Qed.

Lemma getPoint_end :
  CatmullRomCurve3.getPoint (CatmullRomCurve3.new [a; m; b]) 1 = Return b.
Proof.
  unfold CatmullRomCurve3.getPoint. cbn [CatmullRomCurve3.points List.length].
  change (Z.of_nat 3) with 3%Z. change (3 - 1)%Z with 2%Z. change (3 - 2)%Z with 1%Z.
  replace (2 * 1) with (IZR 2) by lra. rewrite floor_IZR.
  replace (eqb (2 - 2) 0) with true
    by (unfold eqb; destruct (Req_dec_T (2 - 2) 0); [reflexivity | lra]).
  cbv beta iota zeta. exc_simpl.
  rewrite !calc_end. now destruct b.
Qed.

End Endpoints.

(** * The damping law *)

Lemma damping_positive (d : R) : 0 < Rpower 0.001 d.
Proof. unfold Rpower. apply exp_pos. Qed.

Lemma ln_damping_base : ln 0.001 < 0.
Proof. rewrite <- ln_1. apply ln_increasing; lra. Qed.

Lemma damping_below_one (d : R) : 0 < d -> Rpower 0.001 d < 1.
Proof.
  intros Hd. unfold Rpower. rewrite <- exp_0. apply exp_increasing.
  pose proof ln_damping_base. nra.
Qed.

Lemma damping_antitone (d d' : R) : d <= d' -> Rpower 0.001 d' <= Rpower 0.001 d.
Proof.
  intros Hd. unfold Rpower. pose proof ln_damping_base as Hln.
  destruct (Req_dec_T (d' * ln 0.001) (d * ln 0.001)) as [-> | Hneq]; [lra|].
  left. apply exp_increasing. nra.
Qed.

Lemma pow_damping_base (d : R) : Math.pow 0.001 d = Rpower 0.001 d.
Proof. apply pow_positive_base. lra. Qed.

Lemma distanceToSquared_nonneg (v w : Vector3.t) : 0 <= Vector3.distanceToSquared v w.
Proof.
  unfold Vector3.distanceToSquared. cbv zeta.
  pose proof (Rle_0_sqr (Vector3.x v - Vector3.x w)).
  pose proof (Rle_0_sqr (Vector3.y v - Vector3.y w)).
  pose proof (Rle_0_sqr (Vector3.z v - Vector3.z w)).
  unfold Rsqr in *. lra.
Qed.

Lemma distanceTo_nonneg (v w : Vector3.t) : 0 <= Vector3.distanceTo v w.
Proof. apply sqrt_pos. Qed.

Lemma distanceTo_zero (v w : Vector3.t) : Vector3.distanceTo v w = 0 <-> v = w.
Proof.
  split.
  - intros H. apply sqrt_eq_0 in H; [|apply distanceToSquared_nonneg].
    unfold Vector3.distanceToSquared in H. cbv zeta in H.
    destruct v as [vx vy vz], w as [wx wy wz]; cbn in H.
    pose proof (Rle_0_sqr (vx - wx)) as Hx. pose proof (Rle_0_sqr (vy - wy)) as Hy.
    pose proof (Rle_0_sqr (vz - wz)) as Hz. unfold Rsqr in Hx, Hy, Hz.
    assert (vx - wx = 0) by (apply Rsqr_0_uniq; unfold Rsqr; lra).
    assert (vy - wy = 0) by (apply Rsqr_0_uniq; unfold Rsqr; lra).
    assert (vz - wz = 0) by (apply Rsqr_0_uniq; unfold Rsqr; lra).
    f_equal; lra.
  - intros ->. unfold Vector3.distanceTo, Vector3.distanceToSquared. cbv zeta.
    replace (_ + _ + _) with 0 by ring. apply sqrt_0.
Qed.

Lemma easing_lerp (d : R) (live goal : Vector3.t) :
  easing d live goal = Vector3.lerp live goal (1 - Rpower 0.001 d).
Proof. unfold easing. now rewrite pow_damping_base. Qed.

Lemma easing_distance (d : R) (live goal : Vector3.t) :
  Vector3.distanceTo (easing d live goal) goal
    = Rpower 0.001 d * Vector3.distanceTo live goal.
Proof.
  rewrite easing_lerp. set (q := Rpower 0.001 d).
  assert (Hq : 0 < q) by apply damping_positive.
  unfold Vector3.distanceTo.
  replace (Vector3.distanceToSquared (Vector3.lerp live goal (1 - q)) goal)
    with (q² * Vector3.distanceToSquared live goal).
  - rewrite sqrt_mult; [|apply Rle_0_sqr | apply distanceToSquared_nonneg].
    rewrite sqrt_Rsqr; lra.
  - unfold Vector3.distanceToSquared, Vector3.lerp, Rsqr; cbn. ring.
Qed.

Lemma easing_compose (d1 d2 : R) (live goal : Vector3.t) :
  easing d2 (easing d1 live goal) goal = easing (d1 + d2) live goal.
Proof.
  rewrite !easing_lerp, Rpower_plus. unfold Vector3.lerp; cbn. f_equal; ring.
Qed.

Lemma easing_zero (live goal : Vector3.t) : easing 0 live goal = live.
Proof.
  rewrite easing_lerp, Rpower_O by lra.
  unfold Vector3.lerp. destruct live; cbn. f_equal; ring.
Qed.

Lemma easing_frames (deltas : list R) (goal : Vector3.t) :
  forall live : Vector3.t,
    foldl (fun v d => easing d v goal) live deltas = easing (total deltas) live goal.
Proof.
  induction deltas as [|d deltas IH]; intros live; cbn.
  - now rewrite easing_zero.
  - rewrite IH. apply easing_compose.
Qed.

(** * The focus controller *)

Lemma ltb_true (a b : R) : ltb a b = true <-> a < b.
Proof. unfold ltb. destruct (Rlt_dec a b); split; intros; congruence || assumption. Qed.

Lemma ltb_false (a b : R) : ltb a b = false <-> ~ a < b.
Proof. unfold ltb. destruct (Rlt_dec a b); split; intros; congruence || tauto. Qed.

Section Controller.

Context {Widget : Type}.
Variable update : Vector3.t -> OrbitControls Widget -> Vector3.t * OrbitControls Widget.

Lemma select_current (name : string) (pos : Vector3.t) (s : Scene Widget) :
  current (select name pos s)
    = Some (mkFocusTarget (Vector3.multiplyScalar (Vector3.normalize pos) 3.2)
                          (Vector3.multiplyScalar pos 0.85)).
Proof. reflexivity. Qed.

Lemma useFrame_idle (delta : R) (s : Scene Widget) :
  current s = None -> useFrame update delta s = s.
Proof. intros H. unfold useFrame. now rewrite H. Qed.

Lemma frames_idle (deltas : nat -> R) (n : nat) (s : Scene Widget) :
  current s = None -> frames update deltas n s = s.
Proof.
  intros H. induction n as [|n IH]; [reflexivity|].
  cbn. rewrite IH. now apply useFrame_idle.
Qed.

(** A frame without the widget: the camera is eased, nothing is cleared. *)
Lemma useFrame_no_controls (delta : R) (s : Scene Widget) (t : FocusTarget) :
  current s = Some t -> controlsRef s = None ->
  useFrame update delta s
    = mkScene (focusTarget s) (Some t)
              (easing delta (camera_position s) (camPos t)) None.
Proof.
  intros Hcur Hctl. unfold useFrame. rewrite Hcur, Hctl.
  now rewrite andb_false_r.
Qed.

(** A frame with the widget: both live values are eased and handed to
    the widget; the target is cleared when both are close afterwards. *)
Lemma useFrame_controls (delta : R) (s : Scene Widget) (t : FocusTarget)
    (c : OrbitControls Widget) :
  current s = Some t -> controlsRef s = Some c ->
  let eased := update (easing delta (camera_position s) (camPos t))
                      (mkOrbitControls (easing delta (target c) (lookAt t)) (widget c)) in
  useFrame update delta s
    = mkScene (focusTarget s)
              (if ltb (Vector3.distanceTo eased.1 (camPos t)) 0.01
                  && ltb (Vector3.distanceTo (target eased.2) (lookAt t)) 0.01
               then None else Some t)
              eased.1 (Some eased.2).
Proof.
  intros Hcur Hctl. unfold useFrame. rewrite Hcur, Hctl.
  cbv zeta. now destruct (update _ _).
Qed.

(** What a frame of a Converging rig does to the live values. *)
Lemma useFrame_eases (delta : R) (s : Scene Widget) (t : FocusTarget) :
  current s = Some t ->
  match controlsRef s with
  | None =>
    camera_position (useFrame update delta s)
      = easing delta (camera_position s) (camPos t)
  | Some c =>
    (camera_position (useFrame update delta s), controlsRef (useFrame update delta s))
      = (let eased := update (easing delta (camera_position s) (camPos t))
                             (mkOrbitControls (easing delta (target c) (lookAt t))
                                              (widget c)) in
         (eased.1, Some eased.2))
  end.
Proof.
  intros Hcur. destruct (controlsRef s) as [c|] eqn:Hctl.
  - now rewrite (useFrame_controls delta s t c Hcur Hctl).
  - now rewrite (useFrame_no_controls delta s t Hcur Hctl).
Qed.

Lemma useFrame_clears (delta : R) (s : Scene Widget) (t : FocusTarget) :
  current s = Some t ->
  current (useFrame update delta s) = None <->
  exists c : OrbitControls Widget,
    controlsRef (useFrame update delta s) = Some c /\
    Vector3.distanceTo (camera_position (useFrame update delta s)) (camPos t) < 0.01 /\
    Vector3.distanceTo (target c) (lookAt t) < 0.01.
Proof.
  intros Hcur. destruct (controlsRef s) as [c|] eqn:Hctl.
  - rewrite (useFrame_controls delta s t c Hcur Hctl). cbv zeta. cbn.
    set (eased := update _ _).
    destruct (ltb (Vector3.distanceTo eased.1 (camPos t)) 0.01) eqn:Hpos;
      destruct (ltb (Vector3.distanceTo (target eased.2) (lookAt t)) 0.01) eqn:Htgt;
      cbn; split; try discriminate.
    + intros _. exists eased.2. apply ltb_true in Hpos, Htgt. auto.
    + reflexivity.
    + intros (c' & Hc' & _ & H). injection Hc' as <-. apply ltb_false in Htgt. tauto.
    + intros (c' & _ & H & _). apply ltb_false in Hpos. tauto.
    + intros (c' & _ & H & _). apply ltb_false in Hpos. tauto.
  - rewrite (useFrame_no_controls delta s t Hcur Hctl). cbn.
    split; [discriminate|]. intros (c' & Hc' & _). discriminate.
Qed.

Lemma frames_no_controls (deltas : nat -> R) (s : Scene Widget) (t : FocusTarget) :
  current s = Some t -> controlsRef s = None ->
  forall n : nat,
    current (frames update deltas n s) = Some t /\
    controlsRef (frames update deltas n s) = None.
Proof.
  intros Hcur Hctl. induction n as [|n [IHcur IHctl]]; [now split|].
  cbn [frames]. rewrite (useFrame_no_controls _ _ t IHcur IHctl). now split.
Qed.

End Controller.

(** * Damped convergence *)

(** C3, amended.  A frame of a Converging rig eases the camera position
    and, when the controls exist, their look-at point, each by
    [lerp(live, goal, 1 - 0.001^delta)], the damping base [0.001] being
    inside (0,1).  An easing step of positive [delta] multiplies the
    distance to the goal by [0.001^delta], a factor inside (0,1): the
    distance strictly decreases whenever the live value is not yet at the
    goal, and a live value at the goal stays there.  Steps compose: [d1]
    then [d2] is the step [d1 + d2], and any sequence of steps is the one
    step of their total time. *)
Theorem easing_damped {Widget : Type}
    (update : Vector3.t -> OrbitControls Widget -> Vector3.t * OrbitControls Widget)
    (s : Scene Widget) (t : FocusTarget) (d1 d2 : R) (live goal : Vector3.t) :
  current s = Some t -> 0 < d1 -> 0 < d2 ->
  match controlsRef s with
  | None =>
    camera_position (useFrame update d1 s) = easing d1 (camera_position s) (camPos t)
  | Some c =>
    (camera_position (useFrame update d1 s), controlsRef (useFrame update d1 s))
      = (let eased := update (easing d1 (camera_position s) (camPos t))
                             (mkOrbitControls (easing d1 (target c) (lookAt t))
                                              (widget c)) in
         (eased.1, Some eased.2))
  end /\
  (0 < 0.001 < 1 /\
   easing d1 live goal = Vector3.lerp live goal (1 - Rpower 0.001 d1)) /\
  (0 < Rpower 0.001 d1 < 1 /\
   Vector3.distanceTo (easing d1 live goal) goal
     = Rpower 0.001 d1 * Vector3.distanceTo live goal) /\
  (live <> goal ->
   Vector3.distanceTo (easing d1 live goal) goal < Vector3.distanceTo live goal) /\
  (live = goal -> easing d1 live goal = goal) /\
  easing d2 (easing d1 live goal) goal = easing (d1 + d2) live goal /\
  (forall deltas : list R,
      foldl (fun v d => easing d v goal) live deltas = easing (total deltas) live goal).
Proof.
  intros Hcur Hd1 Hd2.
  pose proof (damping_positive d1) as Hpos.
  pose proof (damping_below_one d1 Hd1) as Hlt.
  split; [now apply useFrame_eases|].
  split; [split; [lra | apply easing_lerp]|].
  split; [split; [lra | apply easing_distance]|].
  split; [|split; [|split]].
  - intros Hne. rewrite easing_distance.
    assert (0 < Vector3.distanceTo live goal).
    { destruct (distanceTo_nonneg live goal) as [H | H]; [exact H|].
      symmetry in H. apply distanceTo_zero in H. contradiction. }
    nra.
  - intros ->. apply distanceTo_zero. rewrite easing_distance.
    rewrite (proj2 (distanceTo_zero goal goal) eq_refl). ring.
  - apply easing_compose.
  - intros deltas. apply easing_frames.
Qed.

(** The camera the page mounts with, eased toward a target on the z axis:
    a second of easing brings it closer, and a second followed by half a
    second is one step of a second and a half. *)
Lemma easing_damped_witness :
  let live := Vector3.new 0 0.2 3.4 in
  let goal := Vector3.new 0 0 3.2 in
  Vector3.distanceTo (easing 1 live goal) goal < Vector3.distanceTo live goal /\
  easing 0.5 (easing 1 live goal) goal = easing (1 + 0.5) live goal.
Proof.
  cbv zeta.
  assert (H1 : 0 < 1) by lra. assert (H2 : 0 < 0.5) by lra.
  destruct (easing_damped (Widget := unit) (fun p c => (p, c))
              (mkScene None (Some (mkFocusTarget (Vector3.new 0 0 3.2) (Vector3.new 0 0 1)))
                       (Vector3.new 0 0.2 3.4) None)
              (mkFocusTarget (Vector3.new 0 0 3.2) (Vector3.new 0 0 1))
              1 0.5 (Vector3.new 0 0.2 3.4) (Vector3.new 0 0 3.2) eq_refl H1 H2)
    as (_ & _ & _ & Hdecr & _ & Hcomp & _).
  split; [|exact Hcomp].
  apply Hdecr. intros Heq. injection Heq as Hy Hz. lra.
Defined.

(** C3 as stated fails: a live value already at its goal is at distance 0
    before the step and at distance 0 after it. *)
Lemma easing_at_goal :
  let goal := Vector3.new 0 0 3.2 in
  Vector3.distanceTo goal goal = 0 /\
  Vector3.distanceTo (easing 1 goal goal) goal = 0 /\
  ~ (Vector3.distanceTo (easing 1 goal goal) goal < Vector3.distanceTo goal goal).
Proof.
  cbv zeta.
  assert (H0 : Vector3.distanceTo (Vector3.new 0 0 3.2) (Vector3.new 0 0 3.2) = 0)
    by now apply distanceTo_zero.
  assert (H1 : Vector3.distanceTo (easing 1 (Vector3.new 0 0 3.2) (Vector3.new 0 0 3.2))
                                  (Vector3.new 0 0 3.2) = 0)
    by (rewrite easing_distance, H0; ring).
  split; [exact H0|]. split; [exact H1|]. rewrite H0, H1. lra.
Qed.

(** ** Convergence with the eased values left in place *)

Lemma damping_vanishes (eps : R) :
  0 < eps -> exists M : R, 0 < M /\ Rpower 0.001 M < eps.
Proof.
  intros Heps.
  destruct (pow_lt_1_zero 0.001) with (y := eps) as [N HN];
    [rewrite Rabs_pos_eq; lra | exact Heps |].
  exists (INR (S N)). split; [apply lt_0_INR; lia|].
  rewrite Rpower_pow by lra.
  specialize (HN (S N) ltac:(lia)).
  rewrite Rabs_pos_eq in HN; [exact HN|]. apply pow_le. lra.
Qed.

Lemma elapsed_monotone (deltas : nat -> R) (n n' : nat) :
  (forall k : nat, 0 < deltas k) -> (n <= n')%nat ->
  elapsed deltas n <= elapsed deltas n'.
Proof.
  intros Hpos. induction 1 as [|n' _ IH]; [lra|].
  cbn. specialize (Hpos n'). lra.
Qed.

(** Frames that each last at least [dmin] cover any length of time. *)
Lemma elapsed_unbounded (deltas : nat -> R) (dmin : R) :
  0 < dmin -> (forall n : nat, dmin <= deltas n) ->
  forall M : R, exists n : nat, M <= elapsed deltas n.
Proof.
  intros Hdmin Hdeltas M.
  assert (Hlin : forall n, INR n * dmin <= elapsed deltas n).
  { induction n as [|n IH]; [cbn; lra|].
    rewrite S_INR. cbn [elapsed]. specialize (Hdeltas n). lra. }
  destruct (archimed (M / dmin)) as [Hup _].
  exists (Z.to_nat (up (M / dmin))).
  apply Rle_trans with (INR (Z.to_nat (up (M / dmin))) * dmin); [|apply Hlin].
  destruct (Z_lt_le_dec (up (M / dmin)) 0) as [Hneg | Hnonneg].
  - assert (IZR (up (M / dmin)) < 0) by (apply IZR_lt in Hneg; exact Hneg).
    assert (M / dmin < 0) by lra.
    assert (M < 0).
    { apply Rmult_lt_compat_r with (r := dmin) in H0; [|exact Hdmin].
      unfold Rdiv in H0. rewrite Rmult_assoc, Rinv_l, Rmult_1_r, Rmult_0_l in H0 by lra.
      exact H0. }
    pose proof (pos_INR (Z.to_nat (up (M / dmin)))). nra.
  - rewrite INR_IZR_INZ, Z2Nat.id by exact Hnonneg.
    apply Rmult_lt_compat_r with (r := dmin) in Hup; [|exact Hdmin].
    unfold Rdiv in Hup. rewrite Rmult_assoc, Rinv_l, Rmult_1_r in Hup by lra.
    lra.
Qed.

(** A widget whose [update()] returns what it is given leaves the eased
    values in place in every frame. *)
Lemma at_rest_inPlace {Widget : Type}
    (update : Vector3.t -> OrbitControls Widget -> Vector3.t * OrbitControls Widget)
    (delta : R) (s : Scene Widget) :
  (forall p c, update p c = (p, c)) -> inPlace update delta s.
Proof.
  intros Hrest. unfold inPlace.
  destruct (current s); [|exact I]. destruct (controlsRef s); [|exact I].
  cbv zeta. rewrite Hrest. split; reflexivity.
Qed.

(** A frame in which [update()] leaves the eased values in place. *)
Lemma useFrame_in_place {Widget : Type}
    (update : Vector3.t -> OrbitControls Widget -> Vector3.t * OrbitControls Widget)
    (delta : R) (s : Scene Widget) (t : FocusTarget) (c : OrbitControls Widget) :
  current s = Some t -> controlsRef s = Some c -> inPlace update delta s ->
  let position := easing delta (camera_position s) (camPos t) in
  let look := easing delta (target c) (lookAt t) in
  exists c' : OrbitControls Widget,
    target c' = look /\
    useFrame update delta s
      = mkScene (focusTarget s)
                (if ltb (Vector3.distanceTo position (camPos t)) 0.01
                    && ltb (Vector3.distanceTo look (lookAt t)) 0.01
                 then None else Some t)
                position (Some c').
Proof.
  intros Hcur Hctl Hplace. cbv zeta.
  unfold inPlace in Hplace. rewrite Hcur, Hctl in Hplace. cbv zeta in Hplace.
  destruct Hplace as [Hposition Hlook]. cbn [target] in Hlook.
  rewrite (useFrame_controls update delta s t c Hcur Hctl). cbv zeta.
  eexists. split; [exact Hlook|]. rewrite Hposition, Hlook. reflexivity.
Qed.

Section InPlace.

Context {Widget : Type}.
Variable update : Vector3.t -> OrbitControls Widget -> Vector3.t * OrbitControls Widget.
Variable deltas : nat -> R.
Variable s : Scene Widget.
Variable t : FocusTarget.
Variable c : OrbitControls Widget.
Hypothesis converging : current s = Some t.
Hypothesis controls_present : controlsRef s = Some c.

(** The widget's [update()] leaves the camera and its look-at point where
    the easing put them, in every frame of the run. *)
Hypothesis update_in_place : forall n : nat, inPlace update (deltas n) (frames update deltas n s).

(** After [n] frames the rig is Idle, both live values within 0.01 of
    their goals, or it is still Converging and the live values are the
    initial ones eased by the time the frames cover. *)
Lemma frames_eased (n : nat) :
  (current (frames update deltas n s) = None /\
   Vector3.distanceTo (camera_position (frames update deltas n s)) (camPos t) < 0.01 /\
   exists cn : OrbitControls Widget,
     controlsRef (frames update deltas n s) = Some cn /\
     Vector3.distanceTo (target cn) (lookAt t) < 0.01) \/
  (current (frames update deltas n s) = Some t /\
   exists cn : OrbitControls Widget,
     controlsRef (frames update deltas n s) = Some cn /\
     camera_position (frames update deltas n s)
       = easing (elapsed deltas n) (camera_position s) (camPos t) /\
     target cn = easing (elapsed deltas n) (target c) (lookAt t)).
Proof.
  induction n as [|n [IH | (Hcur & cn & Hctl & Hpos & Htgt)]].
  - right. split; [exact converging|]. exists c. split; [exact controls_present|].
    cbn. now rewrite !easing_zero.
  - left. cbn [frames]. rewrite useFrame_idle by apply IH. exact IH.
  - cbn [frames].
    destruct (useFrame_in_place update (deltas n) _ t cn Hcur Hctl (update_in_place n))
      as (cn' & Hlook & Hframe).
    rewrite Hframe. cbn [current camera_position controlsRef].
    rewrite Hpos, Htgt, !easing_compose in *.
    destruct (ltb (Vector3.distanceTo (easing (elapsed deltas n + deltas n)
                                              (camera_position s) (camPos t))
                                      (camPos t)) 0.01) eqn:Hclose;
      [destruct (ltb (Vector3.distanceTo (easing (elapsed deltas n + deltas n)
                                                 (target c) (lookAt t))
                                         (lookAt t)) 0.01) eqn:Hclose'|];
      cbn [andb].
    + left. apply ltb_true in Hclose. apply ltb_true in Hclose'.
      split; [reflexivity|]. split; [exact Hclose|].
      exists cn'. split; [reflexivity|]. now rewrite Hlook.
    + right. split; [reflexivity|]. exists cn'. split; [reflexivity|].
      split; [reflexivity | exact Hlook].
    + right. split; [reflexivity|]. exists cn'. split; [reflexivity|].
      split; [reflexivity | exact Hlook].
Qed.

(** While the rig is Converging both distances are the initial ones
    times [0.001 ^ T], [T] the time the frames cover. *)
Lemma frames_distances (n : nat) :
  current (frames update deltas n s) = Some t ->
  Vector3.distanceTo (camera_position (frames update deltas n s)) (camPos t)
    = Rpower 0.001 (elapsed deltas n) * Vector3.distanceTo (camera_position s) (camPos t) /\
  exists cn : OrbitControls Widget,
    controlsRef (frames update deltas n s) = Some cn /\
    Vector3.distanceTo (target cn) (lookAt t)
      = Rpower 0.001 (elapsed deltas n) * Vector3.distanceTo (target c) (lookAt t).
Proof.
  intros Hcur.
  destruct (frames_eased n) as [(Hidle & _) | (_ & cn & Hctl & Hpos & Htgt)];
    [congruence|].
  rewrite Hpos, easing_distance. split; [reflexivity|].
  exists cn. split; [exact Hctl|]. now rewrite Htgt, easing_distance.
Qed.

(** The frame [n + 1] finds the rig Idle when the time the frames cover
    has brought both distances below 0.01. *)
Lemma frames_idle_when_close (n : nat) :
  Rpower 0.001 (elapsed deltas (S n))
    * Vector3.distanceTo (camera_position s) (camPos t) < 0.01 ->
  Rpower 0.001 (elapsed deltas (S n))
    * Vector3.distanceTo (target c) (lookAt t) < 0.01 ->
  current (frames update deltas (S n) s) = None.
Proof.
  intros HD HL.
  destruct (frames_eased n) as [(Hidle & _) | (Hcur & cn & Hctl & Hpos & Htgt)].
  - cbn [frames]. rewrite useFrame_idle; assumption.
  - cbn [frames].
    destruct (useFrame_in_place update (deltas n) _ t cn Hcur Hctl (update_in_place n))
      as (cn' & _ & Hframe).
    rewrite Hframe. cbn [current].
    rewrite Hpos, Htgt, !easing_compose, !easing_distance.
    cbn [elapsed] in HD, HL.
    replace (ltb _ 0.01 && ltb _ 0.01) with true; [reflexivity|].
    symmetry. apply andb_true_intro. split; apply ltb_true; assumption.
Qed.

(** The frame [n] finds the rig Converging when the time the frames cover
    leaves one of the distances at 0.01 or more. *)
Lemma frames_converging_when_far (n : nat) :
  (forall k : nat, 0 < deltas k) ->
  0.01 <= Rpower 0.001 (elapsed deltas n)
            * Vector3.distanceTo (camera_position s) (camPos t) \/
  0.01 <= Rpower 0.001 (elapsed deltas n)
            * Vector3.distanceTo (target c) (lookAt t) ->
  current (frames update deltas n s) = Some t.
Proof.
  intros Hpositive Hfar.
  assert (HD : 0 <= Vector3.distanceTo (camera_position s) (camPos t))
    by apply distanceTo_nonneg.
  assert (HL : 0 <= Vector3.distanceTo (target c) (lookAt t))
    by apply distanceTo_nonneg.
  induction n as [|n IH]; [exact converging|].
  assert (Hq : Rpower 0.001 (elapsed deltas (S n)) <= Rpower 0.001 (elapsed deltas n)).
  { apply damping_antitone. cbn [elapsed]. pose proof (Hpositive n). lra. }
  pose proof (damping_positive (elapsed deltas (S n))) as Hq0.
  assert (Hcur : current (frames update deltas n s) = Some t).
  { apply IH. destruct Hfar; [left | right]; nra. }
  destruct (frames_eased n) as [(Hidle & _) | (_ & cn & Hctl & Hpos & Htgt)];
    [congruence|].
  cbn [frames].
  destruct (useFrame_in_place update (deltas n) _ t cn Hcur Hctl (update_in_place n))
    as (cn' & _ & Hframe).
  rewrite Hframe. cbn [current].
  rewrite Hpos, Htgt, !easing_compose, !easing_distance.
  cbn [elapsed] in Hfar.
  destruct Hfar as [Hfar | Hfar].
  - replace (ltb (Rpower 0.001 (elapsed deltas n + deltas n)
                  * Vector3.distanceTo (camera_position s) (camPos t)) 0.01) with false;
      [reflexivity|].
    symmetry. apply ltb_false. lra.
  - replace (ltb (Rpower 0.001 (elapsed deltas n + deltas n)
                  * Vector3.distanceTo (target c) (lookAt t)) 0.01) with false;
      [now rewrite andb_false_r|].
    symmetry. apply ltb_false. lra.
Qed.

Hypothesis deltas_positive : forall n : nat, 0 < deltas n.
Hypothesis time_unbounded : forall M : R, exists n : nat, M <= elapsed deltas n.

Lemma frames_reach_idle :
  exists N : nat, forall n : nat, (N <= n)%nat -> current (frames update deltas n s) = None.
Proof.
  set (D := Vector3.distanceTo (camera_position s) (camPos t)).
  set (L := Vector3.distanceTo (target c) (lookAt t)).
  assert (HD : 0 <= D) by apply distanceTo_nonneg.
  assert (HL : 0 <= L) by apply distanceTo_nonneg.
  destruct (damping_vanishes (0.01 / (1 + D + L))) as (M & HM & Hsmall);
    [apply Rdiv_lt_0_compat; lra|].
  destruct (time_unbounded M) as [N HN].
  exists (S N). intros [|n] Hn; [lia|].
  assert (Htime : M <= elapsed deltas (S n)).
  { pose proof (elapsed_monotone deltas N (S n) deltas_positive ltac:(lia)). lra. }
  pose proof (damping_antitone M _ Htime) as Hle.
  pose proof (damping_positive (elapsed deltas (S n))) as Hq.
  assert (Hbound : Rpower 0.001 (elapsed deltas (S n)) * (1 + D + L) < 0.01).
  { apply Rle_lt_trans with (Rpower 0.001 M * (1 + D + L)).
    - apply Rmult_le_compat_r; lra.
    - apply Rmult_lt_reg_r with (/ (1 + D + L)); [apply Rinv_0_lt_compat; lra|].
      rewrite Rmult_assoc, Rinv_r by lra. unfold Rdiv in Hsmall. lra. }
  apply frames_idle_when_close; fold D; fold L; nra.
Qed.

End InPlace.

(** ** What convergence needs

    Each of the two conditions of [frames_reach_idle] is needed: time
    that stays bounded, or a widget that holds the camera away, keep the
    rig Converging for ever. *)

Lemma damping_third : Rpower 0.001 (/ 3) = 0.1.
Proof.
  replace 0.001 with (Rpower 0.1 (INR 3)) by (rewrite Rpower_pow; lra).
  rewrite Rpower_mult.
  replace (INR 3 * / 3) with 1 by (cbn; field).
  apply Rpower_1. lra.
Qed.

Section Stalls.

Context {Widget : Type}.
Variable update : Vector3.t -> OrbitControls Widget -> Vector3.t * OrbitControls Widget.
Variable deltas : nat -> R.
Variable s : Scene Widget.
Variable t : FocusTarget.
Hypothesis converging : current s = Some t.

(** Frames that together never cover a third of a second leave more than
    a tenth of the camera's distance. *)
Lemma frames_stall_in_bounded_time (c : OrbitControls Widget) :
  (forall p c, update p c = (p, c)) ->
  (forall n : nat, 0 < deltas n) ->
  (forall n : nat, elapsed deltas n <= / 3) ->
  controlsRef s = Some c ->
  0.1 <= Vector3.distanceTo (camera_position s) (camPos t) ->
  forall n : nat, current (frames update deltas n s) = Some t.
Proof.
  intros Hrest Hpos Hbounded Hctl Hfar n.
  apply (frames_converging_when_far update deltas s t c converging Hctl
           (fun k => at_rest_inPlace update _ _ Hrest) n Hpos).
  left.
  pose proof (damping_antitone _ _ (Hbounded n)) as Hle.
  rewrite damping_third in Hle. nra.
Qed.

(** A widget whose [update()] keeps the camera away from the target
    position keeps the rig Converging. *)
Lemma frames_stall_with_camera_held :
  (forall p c, ~ Vector3.distanceTo (update p c).1 (camPos t) < 0.01) ->
  forall n : nat, current (frames update deltas n s) = Some t.
Proof.
  intros Hheld. induction n as [|n IH]; [exact converging|].
  cbn [frames].
  destruct (controlsRef (frames update deltas n s)) as [cn|] eqn:Hcn.
  - rewrite (useFrame_controls update (deltas n) _ t cn IH Hcn). cbv zeta. cbn [current].
    replace (ltb (Vector3.distanceTo _ (camPos t)) 0.01) with false; [reflexivity|].
    symmetry. apply ltb_false. apply Hheld.
  - now rewrite (useFrame_no_controls update (deltas n) _ t IH Hcn).
Qed.

End Stalls.

(** Positive deltas that halve from frame to frame never cover a third of
    a second. *)
Lemma halving_deltas (n : nat) :
  0 < / 3 * (/ 2) ^ S n /\ elapsed (fun k => / 3 * (/ 2) ^ S k) n <= / 3.
Proof.
  assert (Hpow : forall k, 0 < (/ 2) ^ k) by (intros k; apply pow_lt; lra).
  split; [specialize (Hpow (S n)); lra|].
  assert (Hsum : forall k, elapsed (fun k => / 3 * (/ 2) ^ S k) k = / 3 * (1 - (/ 2) ^ k)).
  { induction k as [|k IH]; [cbn; lra|].
    cbn [elapsed]. rewrite IH. cbn [pow]. field. }
  rewrite Hsum. specialize (Hpow n). nra.
Qed.

Lemma length_multiplyScalar (v : Vector3.t) (k : R) :
  Vector3.length (Vector3.multiplyScalar v k) = Rabs k * Vector3.length v.
Proof.
  unfold Vector3.length.
  replace (Vector3.lengthSq (Vector3.multiplyScalar v k)) with (k² * Vector3.lengthSq v)
    by (unfold Vector3.lengthSq, Vector3.multiplyScalar, Rsqr; cbn; ring).
  rewrite sqrt_mult; [now rewrite sqrt_Rsqr_abs | apply Rle_0_sqr |].
  unfold Vector3.lengthSq.
  pose proof (Rle_0_sqr (Vector3.x v)). pose proof (Rle_0_sqr (Vector3.y v)).
  pose proof (Rle_0_sqr (Vector3.z v)). unfold Rsqr in *. lra.
Qed.

Lemma length_normalize (v : Vector3.t) :
  Vector3.length v <> 0 -> Vector3.length (Vector3.normalize v) = 1.
Proof.
  intros Hne. unfold Vector3.normalize, Vector3.divideScalar.
  destruct (Req_dec_T (Vector3.length v) 0) as [|_]; [contradiction|].
  rewrite length_multiplyScalar.
  assert (0 < Vector3.length v).
  { destruct (sqrt_pos (Vector3.lengthSq v)) as [H | H]; [exact H|].
    symmetry in H. contradiction. }
  rewrite Rabs_pos_eq.
  - field. exact Hne.
  - apply Rlt_le. apply Rdiv_lt_0_compat; lra.
Qed.

(** * Focus target computation *)

(** C6.  A click on a pin stores the focus target
    [camPos = normalize(pos) * 3.2], [lookAt = pos * 0.85], and the
    effect of the rig takes it as its current target; [0.85 < 1].  For a
    position off the centre [normalize(pos)] is [pos / |pos|], a unit
    vector, so the camera target lies at distance 3.2. *)
Theorem handleClickCity_target {Widget : Type} (name : string) (pos : Vector3.t)
    (s : Scene Widget) :
  let target := mkFocusTarget (Vector3.multiplyScalar (Vector3.normalize pos) 3.2)
                              (Vector3.multiplyScalar pos 0.85) in
  focusTarget (handleClickCity name pos s) = Some target /\
  current (select name pos s) = Some target /\
  0.85 < 1 /\
  (Vector3.length pos <> 0 ->
   Vector3.normalize pos = Vector3.multiplyScalar pos (1 / Vector3.length pos) /\
   Vector3.length (Vector3.normalize pos) = 1 /\
   Vector3.length (camPos target) = 3.2).
Proof.
  cbv zeta. split; [reflexivity|]. split; [reflexivity|]. split; [lra|].
  intros Hne. split; [|split].
  - unfold Vector3.normalize, Vector3.divideScalar.
    destruct (Req_dec_T (Vector3.length pos) 0); [contradiction | reflexivity].
  - now apply length_normalize.
  - cbn [camPos]. rewrite length_multiplyScalar, length_normalize by exact Hne.
    rewrite Rabs_pos_eq; lra.
Qed.

Lemma handleClickCity_target_witness :
  Vector3.length (Vector3.multiplyScalar (Vector3.normalize (Vector3.new 0 0 1)) 3.2) = 3.2.
Proof.
  assert (Hne : Vector3.length (Vector3.new 0 0 1) <> 0).
  { unfold Vector3.length, Vector3.lengthSq; cbn.
    replace (0 * 0 + 0 * 0 + 1 * 1) with 1 by ring. rewrite sqrt_1. lra. }
  exact (proj2 (proj2 (proj2 (proj2 (proj2
           (handleClickCity_target (Widget := unit) "Lome"%string
              (Vector3.new 0 0 1) initialScene))) Hne))).
Defined.

(** * The Idle / Converging cycle *)

(** C4, amended.  A select leaves the rig Converging.  A frame of a
    Converging rig clears the target exactly when, after that frame, the
    orbit controls exist and both the camera position and the controls'
    look-at point are closer than 0.01 to their targets.  With the
    controls present, their [update()] leaving the eased camera position
    and look-at point in place in every frame (whatever else of the
    widget it moves), and frames of positive delta whose elapsed time
    grows without bound, the rig is Idle from some frame on. *)
Theorem select_then_idle {Widget : Type}
    (update : Vector3.t -> OrbitControls Widget -> Vector3.t * OrbitControls Widget)
    (name : string) (pos : Vector3.t) (s : Scene Widget) :
  (exists t : FocusTarget, current (select name pos s) = Some t) /\
  (forall (delta : R) (s1 : Scene Widget) (t : FocusTarget),
      current s1 = Some t ->
      current (useFrame update delta s1) = None <->
      exists c : OrbitControls Widget,
        controlsRef (useFrame update delta s1) = Some c /\
        Vector3.distanceTo (camera_position (useFrame update delta s1)) (camPos t) < 0.01 /\
        Vector3.distanceTo (target c) (lookAt t) < 0.01) /\
  (is_Some (controlsRef s) ->
   forall deltas : nat -> R,
     (forall n : nat, 0 < deltas n) ->
     (forall M : R, exists n : nat, M <= elapsed deltas n) ->
     (forall n : nat,
         inPlace update (deltas n) (frames update deltas n (select name pos s))) ->
     exists N : nat, forall n : nat,
       (N <= n)%nat -> current (frames update deltas n (select name pos s)) = None).
Proof.
  split; [eexists; apply select_current|].
  split; [intros delta s1 t Hcur; now apply useFrame_clears|].
  intros [c Hc] deltas Hpos Htime Hplace.
  exact (frames_reach_idle update deltas (select name pos s) _ c
           (select_current name pos s) Hc Hplace Hpos Htime).
Qed.

(** Sixty frames a second, the controls in place, their [update()]
    counting its calls in the widget and leaving the camera and the
    look-at point alone: a click on the pin of Lome is followed by a
    return to Idle. *)
Lemma select_then_idle_witness :
  let update := fun (p : Vector3.t) (c : OrbitControls nat) =>
                  (p, mkOrbitControls (target c) (S (widget c))) in
  let s := mkScene None None (Vector3.new 0 0.2 3.4)
                   (Some (mkOrbitControls (Vector3.new 0 0 0) O)) in
  exists N : nat, forall n : nat,
    (N <= n)%nat ->
    current (frames update (fun _ => / 60) n
               (select "Lome" (latLonToVec3 6.1319 1.2228 (1.25 * 1.012)) s)) = None.
Proof.
  cbv zeta.
  refine (proj2 (proj2 (select_then_idle
                          (fun p c => (p, mkOrbitControls (target c) (S (widget c))))
                          "Lome"%string
                          (latLonToVec3 6.1319 1.2228 (1.25 * 1.012))
                          (mkScene None None (Vector3.new 0 0.2 3.4)
                                   (Some (mkOrbitControls (Vector3.new 0 0 0) O)))))
                 _ (fun _ => / 60) _ _ _).
  - eexists; reflexivity.
  - intros _; lra.
  - apply (elapsed_unbounded (fun _ => / 60) (/ 60)); [lra | intros _; lra].
  - intros n. unfold inPlace.
    destruct (current _); [|exact I]. destruct (controlsRef _); [|exact I].
    split; reflexivity.
Defined.

(** C4 as stated fails: on the scene the page mounts with, where
    [controlsRef.current] is still [null], a select is never followed by
    a return to Idle, whatever the number of frames. *)
Lemma select_without_controls_never_idle :
  let update := fun (p : Vector3.t) (c : OrbitControls unit) => (p, c) in
  ~ (exists n : nat,
        current (frames update (fun _ => / 60) n
                   (select "Lome" (latLonToVec3 6.1319 1.2228 (1.25 * 1.012))
                           initialScene)) = None).
Proof.
  cbv zeta. intros [n Hn].
  edestruct (frames_no_controls (Widget := unit) (fun p c => (p, c)) (fun _ => / 60)
               (select "Lome" (latLonToVec3 6.1319 1.2228 (1.25 * 1.012)) initialScene))
    as [Hcur _]; [apply select_current | reflexivity |].
  rewrite Hcur in Hn. discriminate.
Qed.

(** * Reselection *)

(** A Converging rig keeps its target until it clears it. *)
Lemma frames_current {Widget : Type}
    (update : Vector3.t -> OrbitControls Widget -> Vector3.t * OrbitControls Widget)
    (deltas : nat -> R) (s : Scene Widget) (t : FocusTarget) :
  current s = Some t ->
  forall n : nat,
    current (frames update deltas n s) = Some t \/ current (frames update deltas n s) = None.
Proof.
  intros Hcur. induction n as [|n [IH | IH]]; [now left | |].
  - cbn [frames].
    destruct (controlsRef (frames update deltas n s)) as [cn|] eqn:Hctl.
    + rewrite (useFrame_controls update (deltas n) _ t cn IH Hctl). cbv zeta.
      cbn [current]. destruct (_ && _); auto.
    + rewrite (useFrame_no_controls update (deltas n) _ t IH Hctl). now left.
  - right. cbn [frames]. now rewrite useFrame_idle.
Qed.

(** The frames do not unmount the controls. *)
Lemma frames_controls_present {Widget : Type}
    (update : Vector3.t -> OrbitControls Widget -> Vector3.t * OrbitControls Widget)
    (deltas : nat -> R) (s : Scene Widget) :
  is_Some (controlsRef s) ->
  forall n : nat, is_Some (controlsRef (frames update deltas n s)).
Proof.
  intros Hctl. induction n as [|n [cn IH]]; [exact Hctl|].
  cbn [frames]. destruct (current (frames update deltas n s)) as [t|] eqn:Hcur.
  - rewrite (useFrame_controls update (deltas n) _ t cn Hcur IH). cbv zeta.
    eexists; reflexivity.
  - rewrite useFrame_idle by exact Hcur. now exists cn.
Qed.

(** Without the controls the camera after [n] frames is the initial one
    eased by the time the frames cover. *)
Lemma frames_no_controls_eased {Widget : Type}
    (update : Vector3.t -> OrbitControls Widget -> Vector3.t * OrbitControls Widget)
    (deltas : nat -> R) (s : Scene Widget) (t : FocusTarget) :
  current s = Some t -> controlsRef s = None ->
  forall n : nat,
    camera_position (frames update deltas n s)
      = easing (elapsed deltas n) (camera_position s) (camPos t).
Proof.
  intros Hcur Hctl. induction n as [|n IH]; [cbn; now rewrite easing_zero|].
  destruct (frames_no_controls update deltas s t Hcur Hctl n) as [Hcur' Hctl'].
  cbn [frames elapsed]. rewrite (useFrame_no_controls update (deltas n) _ t Hcur' Hctl').
  cbn [camera_position]. now rewrite IH, easing_compose.
Qed.

(** C5.  A second select, arriving after any number of frames of the
    first, replaces the current target by the one computed from the second
    position and leaves the live camera position and the controls (with
    their look-at point) as they were; the next frame eases from these
    live values toward the second target, and in no later frame is the
    rig headed anywhere else.  From then on the camera closes in on the
    second target from where it was: without the controls its distance
    to the target position is the distance at the overwrite times
    [0.001 ^ T], [T] the time of the frames since; with the controls,
    their [update()] leaving the eased values in place, the same holds of
    the camera and of the look-at point until both are within 0.01 of
    the second target and the rig is Idle, which happens once the frames
    have covered enough time. *)
Theorem select_overwrites {Widget : Type}
    (update : Vector3.t -> OrbitControls Widget -> Vector3.t * OrbitControls Widget)
    (nameA nameB : string) (posA posB : Vector3.t)
    (deltas : nat -> R) (n : nat) (delta : R) (s : Scene Widget) :
  let s1 := frames update deltas n (select nameA posA s) in
  let s2 := select nameB posB s1 in
  let tB := mkFocusTarget (Vector3.multiplyScalar (Vector3.normalize posB) 3.2)
                          (Vector3.multiplyScalar posB 0.85) in
  current s2 = Some tB /\
  camera_position s2 = camera_position s1 /\
  controlsRef s2 = controlsRef s1 /\
  match controlsRef s1 with
  | None =>
    camera_position (useFrame update delta s2)
      = easing delta (camera_position s1) (camPos tB)
  | Some c =>
    (camera_position (useFrame update delta s2), controlsRef (useFrame update delta s2))
      = (let eased := update (easing delta (camera_position s1) (camPos tB))
                             (mkOrbitControls (easing delta (target c) (lookAt tB))
                                              (widget c)) in
         (eased.1, Some eased.2))
  end /\
  (forall (deltasB : nat -> R) (k : nat),
      current (frames update deltasB k s2) = Some tB \/
      current (frames update deltasB k s2) = None) /\
  (controlsRef s1 = None ->
   forall (deltasB : nat -> R) (k : nat),
     camera_position (frames update deltasB k s2)
       = Vector3.lerp (camera_position s1) (camPos tB)
                      (1 - Rpower 0.001 (elapsed deltasB k)) /\
     Vector3.distanceTo (camera_position (frames update deltasB k s2)) (camPos tB)
       = Rpower 0.001 (elapsed deltasB k)
         * Vector3.distanceTo (camera_position s1) (camPos tB)) /\
  (forall (c : OrbitControls Widget) (deltasB : nat -> R),
      controlsRef s1 = Some c ->
      (forall k : nat, 0 < deltasB k) ->
      (forall k : nat, inPlace update (deltasB k) (frames update deltasB k s2)) ->
      (forall k : nat,
          (current (frames update deltasB k s2) = Some tB /\
           camera_position (frames update deltasB k s2)
             = Vector3.lerp (camera_position s1) (camPos tB)
                            (1 - Rpower 0.001 (elapsed deltasB k)) /\
           Vector3.distanceTo (camera_position (frames update deltasB k s2)) (camPos tB)
             = Rpower 0.001 (elapsed deltasB k)
               * Vector3.distanceTo (camera_position s1) (camPos tB) /\
           exists ck : OrbitControls Widget,
             controlsRef (frames update deltasB k s2) = Some ck /\
             target ck = Vector3.lerp (target c) (lookAt tB)
                                      (1 - Rpower 0.001 (elapsed deltasB k)) /\
             Vector3.distanceTo (target ck) (lookAt tB)
               = Rpower 0.001 (elapsed deltasB k)
                 * Vector3.distanceTo (target c) (lookAt tB)) \/
          (current (frames update deltasB k s2) = None /\
           Vector3.distanceTo (camera_position (frames update deltasB k s2)) (camPos tB)
             < 0.01 /\
           exists ck : OrbitControls Widget,
             controlsRef (frames update deltasB k s2) = Some ck /\
             Vector3.distanceTo (target ck) (lookAt tB) < 0.01)) /\
      (forall k : nat, 0 < Rpower 0.001 (elapsed deltasB (S k)) < 1) /\
      ((forall M : R, exists k : nat, M <= elapsed deltasB k) ->
       exists N : nat, forall k : nat,
         (N <= k)%nat ->
         current (frames update deltasB k s2) = None /\
         Vector3.distanceTo (camera_position (frames update deltasB k s2)) (camPos tB)
           < 0.01 /\
         exists ck : OrbitControls Widget,
           controlsRef (frames update deltasB k s2) = Some ck /\
           Vector3.distanceTo (target ck) (lookAt tB) < 0.01)).
Proof.
  cbv zeta. set (s1 := frames update deltas n (select nameA posA s)).
  set (tB := mkFocusTarget (Vector3.multiplyScalar (Vector3.normalize posB) 3.2)
                           (Vector3.multiplyScalar posB 0.85)).
  assert (Hcur : current (select nameB posB s1) = Some tB) by apply select_current.
  split; [reflexivity|]. split; [reflexivity|]. split; [reflexivity|].
  split.
  { destruct (controlsRef s1) as [c|] eqn:Hctl.
    - rewrite (useFrame_controls update delta (select nameB posB s1) _ c Hcur Hctl).
      reflexivity.
    - rewrite (useFrame_no_controls update delta (select nameB posB s1) _ Hcur Hctl).
      reflexivity. }
  split; [intros deltasB k; now apply frames_current|].
  split.
  { intros Hctl deltasB k.
    rewrite (frames_no_controls_eased update deltasB (select nameB posB s1) tB Hcur Hctl k).
    change (camera_position (select nameB posB s1)) with (camera_position s1).
    split; [apply easing_lerp | apply easing_distance]. }
  intros c deltasB Hctl Hpositive Hplace.
  pose proof (frames_eased update deltasB (select nameB posB s1) tB c Hcur Hctl Hplace)
    as Hrun.
  change (camera_position (select nameB posB s1)) with (camera_position s1) in Hrun.
  split; [|split].
  - intros k. destruct (Hrun k) as [Hidle | (Hstill & ck & Hck & Hpos & Htgt)].
    + right. exact Hidle.
    + left. split; [exact Hstill|]. rewrite Hpos.
      split; [apply easing_lerp|]. split; [apply easing_distance|].
      exists ck. split; [exact Hck|]. rewrite Htgt.
      split; [apply easing_lerp | apply easing_distance].
  - intros k. split; [apply damping_positive|]. apply damping_below_one.
    apply Rlt_le_trans with (elapsed deltasB 1).
    + cbn. pose proof (Hpositive O). lra.
    + apply elapsed_monotone; [exact Hpositive | lia].
  - intros Htime.
    destruct (frames_reach_idle update deltasB (select nameB posB s1) tB c Hcur Hctl
                Hplace Hpositive Htime) as [N HN].
    exists N. intros k Hk. specialize (HN k Hk).
    destruct (Hrun k) as [Hidle | (Hstill & _)]; [exact Hidle | congruence].
Qed.

(** Lome is selected, and ten frames later Paris: the rig ends Idle,
    camera and look-at point within 0.01 of the target of Paris. *)
Lemma select_overwrites_witness :
  let update := fun (p : Vector3.t) (c : OrbitControls unit) => (p, c) in
  let s := mkScene None None (Vector3.new 0 0.2 3.4)
                   (Some (mkOrbitControls (Vector3.new 0 0 0) tt)) in
  let posB := latLonToVec3 48.8566 2.3522 (1.25 * 1.012) in
  let s2 := select "Paris" posB
              (frames update (fun _ => / 60) 10
                 (select "Lome" (latLonToVec3 6.1319 1.2228 (1.25 * 1.012)) s)) in
  exists N : nat, forall k : nat,
    (N <= k)%nat ->
    current (frames update (fun _ => / 60) k s2) = None /\
    Vector3.distanceTo (camera_position (frames update (fun _ => / 60) k s2))
                       (Vector3.multiplyScalar (Vector3.normalize posB) 3.2) < 0.01.
Proof.
  cbv zeta.
  destruct (select_overwrites (fun (p : Vector3.t) (c : OrbitControls unit) => (p, c))
              "Lome"%string "Paris"%string
              (latLonToVec3 6.1319 1.2228 (1.25 * 1.012))
              (latLonToVec3 48.8566 2.3522 (1.25 * 1.012))
              (fun _ => / 60) 10 (/ 60)
              (mkScene None None (Vector3.new 0 0.2 3.4)
                       (Some (mkOrbitControls (Vector3.new 0 0 0) tt))))
    as (_ & _ & _ & _ & _ & _ & Hrun).
  destruct (frames_controls_present
              (fun (p : Vector3.t) (c : OrbitControls unit) => (p, c)) (fun _ => / 60)
              (select "Lome" (latLonToVec3 6.1319 1.2228 (1.25 * 1.012))
                      (mkScene None None (Vector3.new 0 0.2 3.4)
                               (Some (mkOrbitControls (Vector3.new 0 0 0) tt))))
              ltac:(eexists; reflexivity) 10) as [c Hc].
  destruct (Hrun c (fun _ => / 60) Hc) as (_ & _ & Harrive).
  - intros _; lra.
  - intros k. apply at_rest_inPlace. reflexivity.
  - destruct Harrive as [N HN].
    + apply (elapsed_unbounded (fun _ => / 60) (/ 60)); [lra | intros _; lra].
    + exists N. intros k Hk. destruct (HN k Hk) as (Hidle & Hclose & _).
      split; [exact Hidle | exact Hclose].
Defined.

(** * Frames without the orbit controls *)

(** C10.  While [controlsRef.current] is [null] no frame clears the
    target, wherever the camera is; a frame that does clear it had the
    controls, and left their look-at point closer than 0.01 to its
    target. *)
Theorem useFrame_needs_controls {Widget : Type}
    (update : Vector3.t -> OrbitControls Widget -> Vector3.t * OrbitControls Widget)
    (delta : R) (s : Scene Widget) (t : FocusTarget) :
  current s = Some t ->
  (controlsRef s = None ->
   current (useFrame update delta s) = Some t /\
   forall (deltas : nat -> R) (n : nat), current (frames update deltas n s) = Some t) /\
  (current (useFrame update delta s) = None ->
   is_Some (controlsRef s) /\
   exists c : OrbitControls Widget,
     controlsRef (useFrame update delta s) = Some c /\
     Vector3.distanceTo (target c) (lookAt t) < 0.01).
Proof.
  intros Hcur. split.
  - intros Hctl. split.
    + now rewrite (useFrame_no_controls update delta s t Hcur Hctl).
    + intros deltas n. now apply frames_no_controls.
  - intros Hclear. split.
    + destruct (controlsRef s) as [c|] eqn:Hctl; [now eexists|].
      rewrite (useFrame_no_controls update delta s t Hcur Hctl) in Hclear.
      discriminate.
    + apply (useFrame_clears update delta s t Hcur) in Hclear
        as (c & Hc & _ & Hclose).
      now exists c.
Qed.

(** The camera exactly at its target, no controls: still Converging. *)
Lemma useFrame_needs_controls_witness :
  let t := mkFocusTarget (Vector3.new 0 0 3.2) (Vector3.new 0 0 1) in
  let s := mkScene (Some t) (Some t) (Vector3.new 0 0 3.2) (@None (OrbitControls unit)) in
  current (useFrame (fun p c => (p, c)) (/ 60) s) = Some t.
Proof.
  cbv zeta.
  refine (proj1 (proj1 (useFrame_needs_controls (Widget := unit) (fun p c => (p, c)) (/ 60)
                          (mkScene _ _ (Vector3.new 0 0 3.2) None)
                          (mkFocusTarget (Vector3.new 0 0 3.2) (Vector3.new 0 0 1))
                          eq_refl) eq_refl)).
Defined.

(** * Arc-length parametrisation *)

Lemma elem_Return {A : Type} (arr : list A) (k : Z) (v : A) :
  (0 <= k)%Z -> arr !! Z.to_nat k = Some v -> elem arr k = Return v.
Proof.
  intros Hk Hv. unfold elem.
  destruct (k <? 0)%Z eqn:Hneg; [apply Z.ltb_lt in Hneg; lia|].
  now rewrite Hv.
Qed.

Section Search.

Variable arcLengths : list R.
Variable targetArcLength : R.

Hypothesis ascending :
  forall (i j : nat) (li lj : R),
    (i <= j)%nat -> arcLengths !! i = Some li -> arcLengths !! j = Some lj -> li <= lj.

(** On ascending lengths the search stops on an index that holds the
    target, as soon as some index between [low] and [high] does. *)
Lemma search_finds (fuel : nat) :
  forall low high : Z,
    (0 <= low)%Z -> (high < Z.of_nat (List.length arcLengths))%Z ->
    (high - low + 1 <= Z.of_nat fuel)%Z ->
    (exists k : nat, (low <= Z.of_nat k <= high)%Z /\
                     arcLengths !! k = Some targetArcLength) ->
    exists i : Z,
      CatmullRomCurve3.search arcLengths targetArcLength fuel low high = Return i /\
      (low <= i <= high)%Z /\
      arcLengths !! Z.to_nat i = Some targetArcLength.
Proof.
  induction fuel as [|fuel IH]; intros low high Hlow Hhigh Hfuel (k & Hk & Hlk); [lia|].
  cbn [CatmullRomCurve3.search].
  destruct (low <=? high)%Z eqn:Hle; [|apply Z.leb_gt in Hle; lia].
  set (i := (low + (high - low) / 2)%Z).
  assert (Hi : (low <= i <= high)%Z).
  { unfold i. pose proof (Z.div_pos (high - low) 2).
    pose proof (Z.div_le_upper_bound (high - low) 2 (high - low)). lia. }
  destruct (lookup_lt_is_Some_2 arcLengths (Z.to_nat i)) as [li Hli]; [lia|].
  rewrite (elem_Return arcLengths i li) by (lia || assumption).
  rewrite Exc_bind_Return. cbv zeta.
  destruct (ltb (li - targetArcLength) 0) eqn:Hlt.
  - apply ltb_true in Hlt.
    assert (Hik : (Z.to_nat i < k)%nat).
    { apply Nat.lt_nge. intros Hki.
      pose proof (ascending k (Z.to_nat i) _ _ Hki Hlk Hli). lra. }
    destruct (IH (i + 1)%Z high) as (i' & Hsearch & Hi' & Hfound); try lia.
    + exists k. split; [lia | exact Hlk].
    + exists i'. split; [exact Hsearch|]. split; [lia | exact Hfound].
  - apply ltb_false in Hlt.
    destruct (ltb 0 (li - targetArcLength)) eqn:Hgt.
    + apply ltb_true in Hgt.
      assert (Hki : (k < Z.to_nat i)%nat).
      { apply Nat.lt_nge. intros Hik.
        pose proof (ascending (Z.to_nat i) k _ _ Hik Hli Hlk). lra. }
      destruct (IH low (i - 1)%Z) as (i' & Hsearch & Hi' & Hfound); try lia.
      * exists k. split; [lia | exact Hlk].
      * exists i'. split; [exact Hsearch|]. split; [lia | exact Hfound].
    + apply ltb_false in Hgt.
      exists i. split; [reflexivity|]. split; [exact Hi|].
      rewrite Hli. f_equal. lra.
Qed.

End Search.

Section ChordSum.

Variable pt : nat -> Vector3.t.

Lemma chordSum_step (k : nat) : chordSum pt k <= chordSum pt (S k).
Proof. cbn. pose proof (distanceTo_nonneg (pt (S k)) (pt k)). lra. Qed.

Lemma chordSum_ascending (i j : nat) : (i <= j)%nat -> chordSum pt i <= chordSum pt j.
Proof.
  induction 1 as [|j _ IH]; [lra|].
  pose proof (chordSum_step j). lra.
Qed.

(** No length covered between two samples: they are the same point. *)
Lemma chordSum_flat (i j : nat) :
  (i <= j)%nat -> chordSum pt i = chordSum pt j -> pt i = pt j.
Proof.
  induction 1 as [|j Hij IH]; [reflexivity|]. intros Heq.
  pose proof (chordSum_ascending i j Hij) as Hasc.
  pose proof (distanceTo_nonneg (pt (S j)) (pt j)) as Hd.
  cbn [chordSum] in Heq.
  rewrite IH by lra. symmetry. apply distanceTo_zero. lra.
Qed.

Lemma lookup_chordSums (n k : nat) :
  (k < n)%nat -> (chordSum pt <$> seq 0 n) !! k = Some (chordSum pt k).
Proof.
  intros Hk. rewrite list_lookup_fmap, lookup_seq_lt by exact Hk. reflexivity.
Qed.

End ChordSum.

Section ArcLength.

Variables a m b : Vector3.t.
Variable divisions : nat.
Hypothesis divisions_positive : (0 < divisions)%nat.

Let curve3 := CatmullRomCurve3.new [a; m; b].

Let pt : nat -> Vector3.t := sample curve3 divisions.

Lemma sample_returns (k : nat) :
  (k <= divisions)%nat ->
  CatmullRomCurve3.getPoint curve3 (INR k / INR divisions) = Return (pt k).
Proof.
  intros Hk. unfold pt, sample.
  destruct (getPoint_returns a m b (INR k / INR divisions)) as [v Hv].
  - assert (0 < INR divisions) by (apply lt_0_INR; exact divisions_positive).
    assert (0 <= INR k) by apply pos_INR.
    assert (INR k <= INR divisions) by (apply le_INR; exact Hk).
    split.
    + apply Rmult_le_pos; [assumption | left; now apply Rinv_0_lt_compat].
    + apply Rmult_le_reg_r with (INR divisions); [assumption|].
      unfold Rdiv. rewrite Rmult_assoc, Rinv_l by lra. lra.
  - unfold curve3. now rewrite Hv.
Qed.

Lemma sample_first : pt 0 = a.
Proof.
  pose proof (sample_returns 0 ltac:(lia)) as H.
  replace (INR 0 / INR divisions) with 0 in H by (cbn; unfold Rdiv; ring).
  unfold curve3 in H. rewrite getPoint_start in H. now injection H.
Qed.

Lemma sample_last : pt divisions = b.
Proof.
  pose proof (sample_returns divisions ltac:(lia)) as H.
  assert (0 < INR divisions) by (apply lt_0_INR; exact divisions_positive).
  replace (INR divisions / INR divisions) with 1 in H by (field; lra).
  unfold curve3 in H. rewrite getPoint_end in H. now injection H.
Qed.

Lemma lengthsStep_sample (k : nat) (cache : list R) :
  (S k <= divisions)%nat ->
  CatmullRomCurve3.lengthsStep curve3 divisions (cache, chordSum pt k, pt k) (S k)
    = Return (cache ++ [chordSum pt (S k)], chordSum pt (S k), pt (S k)).
Proof.
  intros Hk. unfold CatmullRomCurve3.lengthsStep.
  rewrite (sample_returns (S k) Hk). reflexivity.
Qed.

Lemma lengths_loop (count : nat) :
  forall (k : nat) (cache : list R),
    (k + count <= divisions)%nat ->
    for_loop (CatmullRomCurve3.lengthsStep curve3 divisions) (S k) count
             (cache, chordSum pt k, pt k)
      = Return (cache ++ (chordSum pt <$> seq (S k) count),
                chordSum pt (k + count), pt (k + count)%nat).
Proof.
  induction count as [|count IH]; intros k cache Hk.
  - cbn. now rewrite app_nil_r, Nat.add_0_r.
  - cbn [for_loop]. rewrite lengthsStep_sample by lia. rewrite Exc_bind_Return.
    rewrite (IH (S k)) by lia.
    rewrite <- app_assoc. cbn [seq fmap list_fmap app].
    now replace (S k + count)%nat with (k + S count)%nat by lia.
Qed.

Lemma getLengths_samples :
  CatmullRomCurve3.getLengths curve3 divisions
    = Return (chordSum pt <$> seq 0 (S divisions)).
Proof.
  unfold CatmullRomCurve3.getLengths, curve3.
  rewrite getPoint_start, Exc_bind_Return. fold curve3.
  rewrite <- sample_first.
  change 0 with (chordSum pt 0) at 2.
  rewrite (lengths_loop divisions 0 [0]) by lia.
  rewrite Exc_bind_Return. reflexivity.
Qed.

End ArcLength.

Section PointAt.

Variables a m b : Vector3.t.

Let curve3 := CatmullRomCurve3.new [a; m; b].
Let pt : nat -> Vector3.t := sample curve3 200.

(** When some sample index holds the fraction [u] of the whole length,
    [getUtoTmapping] returns the parameter of such an index. *)
Lemma getUtoTmapping_found (u : R) (k : nat) :
  (k <= 200)%nat -> chordSum pt k = u * chordSum pt 200 ->
  exists i : nat,
    (i <= 200)%nat /\ chordSum pt i = u * chordSum pt 200 /\
    CatmullRomCurve3.getUtoTmapping curve3 u = Return (INR i / INR 200).
Proof.
  intros Hk Hfrac. unfold CatmullRomCurve3.getUtoTmapping.
  unfold curve3. rewrite (getLengths_samples a m b 200) by lia. fold curve3. fold pt.
  rewrite Exc_bind_Return.
  set (arcLengths := chordSum pt <$> seq 0 201).
  assert (Hlen : List.length arcLengths = 201%nat)
    by (unfold arcLengths; now rewrite length_fmap, length_seq).
  rewrite Hlen. change (Z.of_nat 201 - 1)%Z with 200%Z.
  assert (Hlookup : forall j, (j < 201)%nat -> arcLengths !! j = Some (chordSum pt j))
    by (intros j Hj; now apply lookup_chordSums).
  rewrite (elem_Return arcLengths 200 (chordSum pt 200));
    [|lia | change (Z.to_nat 200) with 200%nat; apply Hlookup; lia].
  rewrite Exc_bind_Return. cbv zeta.
  destruct (search_finds arcLengths (u * chordSum pt 200)) with (fuel := 201%nat)
    (low := 0%Z) (high := 200%Z) as (i & Hsearch & Hi & Hfound); try lia.
  - intros i j li lj Hij Hli Hlj.
    assert (j < 201)%nat by (apply lookup_lt_Some in Hlj; lia).
    rewrite Hlookup in Hli, Hlj by lia.
    injection Hli as <-. injection Hlj as <-. now apply chordSum_ascending.
  - exists k. split; [lia|]. rewrite Hlookup by lia. now rewrite Hfrac.
  - rewrite Hsearch, Exc_bind_Return.
    rewrite (elem_Return arcLengths i _ ltac:(lia) Hfound), Exc_bind_Return.
    replace (eqb (u * chordSum pt 200) (u * chordSum pt 200)) with true
      by (unfold eqb; destruct (Req_dec_T _ _); [reflexivity | contradiction]).
    exists (Z.to_nat i). split; [lia|]. split.
    + rewrite Hlookup in Hfound by lia. now injection Hfound.
    + change (mret ?v) with (Return v). f_equal.
      rewrite !INR_IZR_INZ, Z2Nat.id by lia. reflexivity.
Qed.

Lemma getPointAt_start : CatmullRomCurve3.getPointAt curve3 0 = Return a.
Proof.
  destruct (getUtoTmapping_found 0 0) as (i & Hi & Hsum & Hmap);
    [lia | change (chordSum pt 0) with 0; ring |].
  unfold CatmullRomCurve3.getPointAt. rewrite Hmap, Exc_bind_Return.
  unfold curve3. rewrite (sample_returns a m b 200 ltac:(lia) i Hi). fold curve3. fold pt.
  f_equal. rewrite <- (chordSum_flat pt 0 i ltac:(lia)).
  - apply (sample_first a m b 200). lia.
  - change (chordSum pt 0) with 0. rewrite Hsum. ring.
Qed.

Lemma getPointAt_end : CatmullRomCurve3.getPointAt curve3 1 = Return b.
Proof.
  destruct (getUtoTmapping_found 1 200) as (i & Hi & Hsum & Hmap); [lia | ring |].
  unfold CatmullRomCurve3.getPointAt. rewrite Hmap, Exc_bind_Return.
  unfold curve3. rewrite (sample_returns a m b 200 ltac:(lia) i Hi). fold curve3. fold pt.
  f_equal. rewrite (chordSum_flat pt i 200 Hi).
  - apply (sample_last a m b 200). lia.
  - rewrite Hsum. ring.
Qed.

End PointAt.

(** * Arc endpoints *)

(** C7.  The curve of an arc passes through its two ends: the point at
    fraction 0 is the start point [a] and the point at fraction 1 is the
    end point [b], both for the arc-length fraction of [getPointAt] (the
    call of the comet animation) and for the spline parameter of
    [getPoint] (the call behind [getPoints]); this holds whatever the two
    points and the lift. *)
Theorem buildArcCurve_endpoints (a b : Vector3.t) (lift : R) :
  CatmullRomCurve3.getPointAt (buildArcCurve a b lift) 0 = Return a /\
  CatmullRomCurve3.getPointAt (buildArcCurve a b lift) 1 = Return b /\
  CatmullRomCurve3.getPoint (buildArcCurve a b lift) 0 = Return a /\
  CatmullRomCurve3.getPoint (buildArcCurve a b lift) 1 = Return b.
Proof.
  unfold buildArcCurve.
  split; [apply getPointAt_start|]. split; [apply getPointAt_end|].
  split; [apply getPoint_start | apply getPoint_end].
Qed.

(** * Further properties of the page's code *)

(** ** [latLonToVec3] *)

Lemma degToRad_colatitude (lat : R) :
  MathUtils.degToRad (90 - lat) = PI / 2 - MathUtils.degToRad lat.
Proof. unfold MathUtils.degToRad. field. Qed.

Lemma degToRad_half_turn (lon : R) :
  MathUtils.degToRad (lon + 180) = MathUtils.degToRad lon + PI.
Proof. unfold MathUtils.degToRad. field. Qed.

Lemma latLonToVec3_geographic (lat lon radius : R) :
  latLonToVec3 lat lon radius
    = Vector3.new (radius * cos (MathUtils.degToRad lat) * cos (MathUtils.degToRad lon))
                  (radius * sin (MathUtils.degToRad lat))
                  (- radius * cos (MathUtils.degToRad lat) * sin (MathUtils.degToRad lon)).
Proof.
  unfold latLonToVec3. cbv zeta.
  rewrite degToRad_colatitude, degToRad_half_turn.
  rewrite sin_shift, cos_shift, neg_cos, neg_sin.
  f_equal; ring.
Qed.

(** X1.  In geographic terms [latLonToVec3] is
    [(r cos lat cos lon, r sin lat, - r cos lat sin lon)], angles in
    degrees: the half turn added to the longitude and the minus sign of
    [x] cancel, latitude is the elevation above the [xz] plane, and
    longitude 0 lies on the positive [x] axis. *)
Theorem latLonToVec3_closed_form (lat lon radius : R) :
  latLonToVec3 lat lon radius
    = Vector3.new (radius * cos (MathUtils.degToRad lat) * cos (MathUtils.degToRad lon))
                  (radius * sin (MathUtils.degToRad lat))
                  (- radius * cos (MathUtils.degToRad lat) * sin (MathUtils.degToRad lon)) /\
  latLonToVec3 0 0 radius = Vector3.new radius 0 0.
Proof.
  split; [apply latLonToVec3_geographic|].
  rewrite latLonToVec3_geographic.
  replace (MathUtils.degToRad 0) with 0 by (unfold MathUtils.degToRad; field).
  rewrite cos_0, sin_0. f_equal; ring.
Qed.

(** X2.  At the two poles the longitude does not matter: latitude 90
    gives [(0, r, 0)] and latitude -90 gives [(0, -r, 0)] for every
    longitude. *)
Theorem latLonToVec3_poles (lon radius : R) :
  latLonToVec3 90 lon radius = Vector3.new 0 radius 0 /\
  latLonToVec3 (-90) lon radius = Vector3.new 0 (- radius) 0.
Proof.
  rewrite !latLonToVec3_geographic.
  replace (MathUtils.degToRad 90) with (PI / 2) by (unfold MathUtils.degToRad; field).
  replace (MathUtils.degToRad (-90)) with (- (PI / 2)) by (unfold MathUtils.degToRad; field).
  rewrite cos_neg, sin_neg, cos_PI2, sin_PI2.
  split; f_equal; ring.
Qed.

Lemma latLonToVec3_scaled (lat lon radius k : R) :
  latLonToVec3 lat lon (radius * k)
    = Vector3.multiplyScalar (latLonToVec3 lat lon radius) k.
Proof.
  unfold latLonToVec3, Vector3.multiplyScalar. cbv zeta. cbn. f_equal; ring.
Qed.

(** X3.  The point is linear in the radius: scaling the radius scales the
    point from the centre.  So the pin of a city (radius [r * 1.012]) and
    an arc end at that city (radius [r * 1.01]) lie on one ray: the pin
    is the arc end scaled by [1.012 / 1.01]. *)
Theorem latLonToVec3_radius_linear (lat lon radius k : R) :
  latLonToVec3 lat lon (radius * k)
    = Vector3.multiplyScalar (latLonToVec3 lat lon radius) k /\
  latLonToVec3 lat lon (radius * 1.012)
    = Vector3.multiplyScalar (latLonToVec3 lat lon (radius * 1.01)) (1.012 / 1.01).
Proof.
  split; [apply latLonToVec3_scaled|].
  replace (radius * 1.012) with (radius * 1.01 * (1.012 / 1.01)) by (field; lra).
  apply latLonToVec3_scaled.
Qed.

(** X4.  Turning the longitude by 360 degrees gives the same point;
    negating the latitude and turning the longitude by 180 degrees gives
    the opposite point of the sphere. *)
Theorem latLonToVec3_turns (lat lon radius : R) :
  latLonToVec3 lat (lon + 360) radius = latLonToVec3 lat lon radius /\
  latLonToVec3 (- lat) (lon + 180) radius
    = Vector3.multiplyScalar (latLonToVec3 lat lon radius) (-1).
Proof.
  rewrite !latLonToVec3_geographic.
  replace (MathUtils.degToRad (lon + 360)) with (MathUtils.degToRad lon + PI + PI)
    by (unfold MathUtils.degToRad; field).
  rewrite degToRad_half_turn.
  replace (MathUtils.degToRad (- lat)) with (- MathUtils.degToRad lat)
    by (unfold MathUtils.degToRad; field).
  rewrite !neg_cos, !neg_sin, cos_neg, sin_neg.
  unfold Vector3.multiplyScalar; cbn. split; f_equal; ring.
Qed.

(** ** [buildArcCurve] *)

Lemma lengthSq_nonneg (v : Vector3.t) : 0 <= Vector3.lengthSq v.
Proof.
  unfold Vector3.lengthSq.
  pose proof (Rle_0_sqr (Vector3.x v)). pose proof (Rle_0_sqr (Vector3.y v)).
  pose proof (Rle_0_sqr (Vector3.z v)). unfold Rsqr in *. lra.
Qed.

Lemma length_zero (v : Vector3.t) : Vector3.length v = 0 -> v = Vector3.new 0 0 0.
Proof.
  intros H. apply sqrt_eq_0 in H; [|apply lengthSq_nonneg].
  unfold Vector3.lengthSq in H. destruct v as [vx vy vz]; cbn in H.
  pose proof (Rle_0_sqr vx) as Hx. pose proof (Rle_0_sqr vy) as Hy.
  pose proof (Rle_0_sqr vz) as Hz. unfold Rsqr in Hx, Hy, Hz.
  f_equal; apply Rsqr_0_uniq; unfold Rsqr; lra.
Qed.

(** Normalising and rescaling by the old length times [k] is scaling by
    [k], the zero vector included. *)
Lemma normalize_rescale (v : Vector3.t) (k : R) :
  Vector3.multiplyScalar (Vector3.normalize v) (Vector3.length v * k)
    = Vector3.multiplyScalar v k.
Proof.
  unfold Vector3.normalize, Vector3.divideScalar.
  destruct (Req_dec_T (Vector3.length v) 0) as [Hzero | Hne].
  - rewrite Hzero, (length_zero v Hzero).
    unfold Vector3.multiplyScalar; cbn. f_equal; ring.
  - unfold Vector3.multiplyScalar; cbn. f_equal; field; exact Hne.
Qed.

Lemma getPoint_middle (a m b : Vector3.t) :
  CatmullRomCurve3.getPoint (CatmullRomCurve3.new [a; m; b]) (1 / 2) = Return m.
Proof.
  unfold CatmullRomCurve3.getPoint. cbn [CatmullRomCurve3.points List.length].
  change (Z.of_nat 3) with 3%Z. change (3 - 1)%Z with 2%Z. change (3 - 2)%Z with 1%Z.
  replace (2 * (1 / 2)) with (IZR 1) by lra. rewrite floor_IZR.
  replace (1 - 1) with 0 by lra.
  rewrite andb_false_r. cbv beta iota zeta. exc_simpl.
  rewrite !calc_start. now destruct m.
Qed.

(** X5.  The lifted control point of an arc is the midpoint of its ends
    scaled by [1 + lift] from the centre, whatever the ends (the
    normalisation is harmless when the midpoint is the centre itself),
    and the curve passes through it at the parameter 1/2. *)
Theorem buildArcCurve_control_point (a b : Vector3.t) (lift : R) :
  let mid := Vector3.multiplyScalar (Vector3.add a b) 0.5 in
  let up := Vector3.multiplyScalar mid (1 + lift) in
  buildArcCurve a b lift = CatmullRomCurve3.new [a; up; b] /\
  CatmullRomCurve3.getPoint (buildArcCurve a b lift) (1 / 2) = Return up.
Proof.
  cbv zeta.
  assert (Hcurve : buildArcCurve a b lift
                   = CatmullRomCurve3.new
                       [a; Vector3.multiplyScalar
                             (Vector3.multiplyScalar (Vector3.add a b) 0.5) (1 + lift); b]).
  { unfold buildArcCurve. cbv zeta. now rewrite normalize_rescale. }
  split; [exact Hcurve|]. rewrite Hcurve. apply getPoint_middle.
Qed.

(** X6.  When the two ends are opposite points, [b = -a], the control
    point is the centre of the sphere: the lift is lost and the arc is
    the curve through [a], the centre and [b]. *)
Theorem buildArcCurve_antipodal (a b : Vector3.t) (lift : R) :
  b = Vector3.multiplyScalar a (-1) ->
  buildArcCurve a b lift = CatmullRomCurve3.new [a; Vector3.new 0 0 0; b] /\
  CatmullRomCurve3.getPoint (buildArcCurve a b lift) (1 / 2) = Return (Vector3.new 0 0 0).
Proof.
  intros ->.
  assert (Hcurve : buildArcCurve a (Vector3.multiplyScalar a (-1)) lift
                   = CatmullRomCurve3.new
                       [a; Vector3.new 0 0 0; Vector3.multiplyScalar a (-1)]).
  { unfold buildArcCurve. cbv zeta. rewrite normalize_rescale.
    replace (Vector3.multiplyScalar
               (Vector3.multiplyScalar (Vector3.add a (Vector3.multiplyScalar a (-1))) 0.5)
               (1 + lift))
      with (Vector3.new 0 0 0); [reflexivity|].
    unfold Vector3.multiplyScalar, Vector3.add; cbn. f_equal; ring. }
  split; [exact Hcurve|]. rewrite Hcurve. apply getPoint_middle.
Qed.

(** Lome and the point opposite to it. *)
Lemma buildArcCurve_antipodal_witness :
  buildArcCurve (latLonToVec3 6.1319 1.2228 1.2625)
                (Vector3.multiplyScalar (latLonToVec3 6.1319 1.2228 1.2625) (-1)) 0.32
    = CatmullRomCurve3.new
        [latLonToVec3 6.1319 1.2228 1.2625; Vector3.new 0 0 0;
         Vector3.multiplyScalar (latLonToVec3 6.1319 1.2228 1.2625) (-1)].
Proof.
  exact (proj1 (buildArcCurve_antipodal (latLonToVec3 6.1319 1.2228 1.2625) _ 0.32 eq_refl)).
Defined.

(** X7.  For two ends on the sphere of radius [r], the height of the
    control point depends on the chord [d] between them only:
    [|up|^2 = (1 + lift)^2 (r^2 - d^2 / 4)].  With a lift that is not
    negative, the control point is below the surface as soon as
    [4 r^2 ((1 + lift)^2 - 1) < (1 + lift)^2 d^2]. *)
Theorem buildArcCurve_control_height (a b : Vector3.t) (lift r : R) :
  Vector3.lengthSq a = r * r -> Vector3.lengthSq b = r * r ->
  let up := Vector3.multiplyScalar (Vector3.multiplyScalar (Vector3.add a b) 0.5) (1 + lift) in
  buildArcCurve a b lift = CatmullRomCurve3.new [a; up; b] /\
  Vector3.lengthSq up
    = (1 + lift) * (1 + lift) * (r * r - Vector3.distanceToSquared a b / 4) /\
  (0 < r -> 0 <= lift ->
   4 * (r * r) * ((1 + lift) * (1 + lift) - 1)
     < (1 + lift) * (1 + lift) * Vector3.distanceToSquared a b ->
   Vector3.length up < r).
Proof.
  intros Ha Hb. cbv zeta.
  assert (Hsq : Vector3.lengthSq
                  (Vector3.multiplyScalar (Vector3.multiplyScalar (Vector3.add a b) 0.5)
                                          (1 + lift))
                = (1 + lift) * (1 + lift) * (r * r - Vector3.distanceToSquared a b / 4)).
  { replace (r * r) with ((Vector3.lengthSq a + Vector3.lengthSq b) / 2)
      by (rewrite Ha, Hb; field).
    unfold Vector3.lengthSq, Vector3.distanceToSquared, Vector3.multiplyScalar,
      Vector3.add. cbn. replace 0.5 with (/ 2) by lra. field. }
  split; [|split].
  - unfold buildArcCurve. cbv zeta. now rewrite normalize_rescale.
  - exact Hsq.
  - intros Hr Hlift Hchord. unfold Vector3.length. rewrite Hsq.
    apply Rlt_le_trans with (sqrt (r * r)); [|rewrite sqrt_square; lra].
    apply sqrt_lt_1_alt. split.
    + rewrite <- Hsq. apply lengthSq_nonneg.
    + nra.
Qed.

(** Two ends a quarter of a turn apart on the unit sphere, with the
    page's lift 0.32: the control point is inside the sphere. *)
Lemma buildArcCurve_control_height_witness :
  Vector3.length
    (Vector3.multiplyScalar
       (Vector3.multiplyScalar (Vector3.add (Vector3.new 1 0 0) (Vector3.new 0 1 0)) 0.5)
       (1 + 0.32)) < 1.
Proof.
  refine (proj2 (proj2 (buildArcCurve_control_height
                          (Vector3.new 1 0 0) (Vector3.new 0 1 0) 0.32 1 _ _)) _ _ _).
  - unfold Vector3.lengthSq; cbn; ring.
  - unfold Vector3.lengthSq; cbn; ring.
  - lra.
  - lra.
  - unfold Vector3.distanceToSquared; cbn; lra.
Defined.

(** ** The pins *)

Lemma setAdd_elem (names : list string) :
  forall (seen : list string) (x : string),
    x ∈ setAdd seen names <-> x ∈ seen \/ x ∈ names.
Proof.
  induction names as [|name rest IH]; intros seen x; cbn [setAdd].
  - rewrite elem_of_nil. tauto.
  - rewrite IH, elem_of_cons. destruct (decide (name ∈ seen)) as [Hin | Hout].
    + split; [tauto|]. intros [H | [-> | H]]; auto.
    + rewrite elem_of_app, list_elem_of_singleton. tauto.
Qed.

Lemma setAdd_NoDup (names : list string) :
  forall seen : list string, NoDup seen -> NoDup (setAdd seen names).
Proof.
  induction names as [|name rest IH]; intros seen Hseen; cbn [setAdd]; [exact Hseen|].
  apply IH. destruct (decide (name ∈ seen)) as [Hin | Hout]; [exact Hseen|].
  apply NoDup_app. split; [exact Hseen|]. split.
  - intros x Hx Hx'. apply list_elem_of_singleton in Hx'. subst. contradiction.
  - apply NoDup_singleton.
Qed.

Lemma setAdd_distinct (names : list string) :
  forall seen : list string, NoDup (seen ++ names) -> setAdd seen names = seen ++ names.
Proof.
  induction names as [|name rest IH]; intros seen Hnodup; cbn [setAdd].
  - now rewrite app_nil_r.
  - destruct (decide (name ∈ seen)) as [Hin | Hout].
    + apply NoDup_app in Hnodup as (_ & Hdisjoint & _).
      exfalso. apply (Hdisjoint name Hin). apply elem_of_cons. now left.
    + rewrite IH; rewrite <- app_assoc; [reflexivity | exact Hnodup].
Qed.

Lemma buildPins_names (route : list string) (table : gmap string City) (radius : R) :
  Pin.name <$> buildPins route table radius
    = filter (fun name => is_Some (table !! name)) (uniqueNames route).
Proof.
  unfold buildPins. induction (uniqueNames route) as [|name l IH]; [reflexivity|].
  cbn [omap list_omap]. unfold index at 1. cbn [toString].
  rewrite filter_cons. destruct (table !! name) as [c|] eqn:Hc.
  - destruct (decide (is_Some (Some c))) as [_ | Hno]; [|exfalso; apply Hno; eauto].
    rewrite fmap_cons, IH. reflexivity.
  - destruct (decide (is_Some (@None City))) as [[? Habs] | _]; [discriminate|].
    exact IH.
Qed.

Lemma buildPins_elem (route : list string) (table : gmap string City) (radius : R)
    (p : Pin.t) :
  p ∈ buildPins route table radius <->
  exists c, Pin.name p ∈ route /\ table !! Pin.name p = Some c /\
            Pin.pos p = latLonToVec3 (lat c) (lon c) (radius * 1.012).
Proof.
  unfold buildPins. rewrite list_elem_of_omap. split.
  - intros (name & Hname & Hpin). unfold index in Hpin. cbn [toString] in Hpin.
    destruct (table !! name) as [c|] eqn:Hc; [|discriminate].
    injection Hpin as <-. exists c. cbn.
    apply setAdd_elem in Hname as [Hname | Hname]; [now apply elem_of_nil in Hname|].
    auto.
  - intros (c & Hname & Hc & Hpos). exists (Pin.name p). split.
    + apply setAdd_elem. now right.
    + unfold index. cbn [toString]. rewrite Hc. destruct p as [name pos]. cbn in *.
      now rewrite Hpos.
Qed.

(** X8.  For a route that uses none of the names every object inherits
    a member for: the pins carry pairwise distinct names; a name has a
    pin exactly when it occurs in the route and the table holds it,
    however often it occurs; each pin stands at its city on the sphere of
    radius [radius * 1.012]; and a route without repeated or unknown
    names gets its pins in route order. *)
Theorem buildPins_distinct (route : list string) (table : gmap string City) (radius : R) :
  Forall (fun name => name ∉ Object_prototype) route ->
  NoDup (Pin.name <$> buildPins route table radius) /\
  (forall name : string,
      name ∈ (Pin.name <$> buildPins route table radius)
      <-> name ∈ route /\ is_Some (table !! name)) /\
  Forall (fun p => exists c, table !! Pin.name p = Some c /\
                             Pin.pos p = latLonToVec3 (lat c) (lon c) (radius * 1.012))
         (buildPins route table radius) /\
  (List.length (buildPins route table radius) <= List.length route)%nat /\
  (NoDup route -> Forall (fun name => is_Some (table !! name)) route ->
   Pin.name <$> buildPins route table radius = route).
Proof.
  intros _. split; [|split; [|split; [|split]]].
  - rewrite buildPins_names. apply NoDup_filter, setAdd_NoDup, NoDup_nil_2.
  - intros name. rewrite buildPins_names, list_elem_of_filter.
    unfold uniqueNames. rewrite setAdd_elem, elem_of_nil. tauto.
  - apply Forall_forall. intros p Hp. apply buildPins_elem in Hp as (c & _ & Hc & Hpos).
    eauto.
  - rewrite <- (length_fmap Pin.name), buildPins_names.
    etransitivity; [apply length_filter|].
    assert (Hlen : forall names seen,
               (List.length (setAdd seen names) <= List.length seen + List.length names)%nat).
    { induction names as [|name rest IH]; intros seen; cbn [setAdd List.length]; [lia|].
      etransitivity; [apply IH|].
      destruct (decide (name ∈ seen)); [lia|]. rewrite length_app. cbn. lia. }
    apply (Hlen route []).
  - intros Hnodup Hall. rewrite buildPins_names. unfold uniqueNames.
    rewrite setAdd_distinct by exact Hnodup. cbn [app].
    induction Hall as [|name rest Hname _ IH]; [reflexivity|].
    rewrite filter_cons. destruct (decide (is_Some (table !! name))); [|contradiction].
    f_equal. apply IH. now apply NoDup_cons in Hnodup as [_ Hrest].
Qed.

(** The page's route: twenty distinct names, all in the table. *)
Lemma buildPins_distinct_witness :
  Pin.name <$> buildPins ROUTE CITY 1.25 = ROUTE.
Proof.
  refine (proj2 (proj2 (proj2 (proj2 (buildPins_distinct ROUTE CITY 1.25 _)))) _ _).
  - refine (bool_decide_unpack _ _). vm_compute. exact I.
  - refine (bool_decide_unpack (NoDup ROUTE) _). vm_compute. exact I.
  - unfold ROUTE. repeat constructor; eexists; reflexivity.
Defined.

(** X9.  For a route that uses none of the names every object inherits
    a member for, every arc ends at two pins: the names in its key are
    the names of two pins, and each pin stands on the ray from the centre
    through its end of the arc, at [1.012 / 1.01] times the distance. *)
Theorem arcs_end_at_pins (route : list string) (table : gmap string City) (radius : R) :
  Forall (fun name => name ∉ Object_prototype) route ->
  exists arcs,
    buildArcs route table radius = Return arcs /\
    Forall (fun arc =>
              exists (pinA pinB : Pin.t) (a up b : Vector3.t),
                pinA ∈ buildPins route table radius /\
                pinB ∈ buildPins route table radius /\
                key arc = (Pin.name pinA +:+ "-" +:+ Pin.name pinB) /\
                curve arc = CatmullRomCurve3.new [a; up; b] /\
                Pin.pos pinA = Vector3.multiplyScalar a (1.012 / 1.01) /\
                Pin.pos pinB = Vector3.multiplyScalar b (1.012 / 1.01))
           arcs.
Proof.
  intros _.
  destruct (buildArcs_spec route table radius) as [arcs [Hbuild Harcs]].
  exists arcs. split; [exact Hbuild|].
  apply Forall_forall. intros arc Harc.
  apply list_elem_of_lookup in Harc as [k Hk].
  destruct (Forall2_lookup_r _ _ _ _ _ Harcs Hk) as (i & _ & Hat).
  destruct Hat as (nameA & nameB & A & B & Hi & Hj & HA & HB & Hkey & Hcurve & _).
  exists (Pin.new nameA (latLonToVec3 (lat A) (lon A) (radius * 1.012))),
         (Pin.new nameB (latLonToVec3 (lat B) (lon B) (radius * 1.012))).
  do 3 eexists.
  split; [|split; [|split; [exact Hkey|split; [exact Hcurve|]]]].
  - apply buildPins_elem. exists A. cbn.
    split; [eapply list_elem_of_lookup_2; exact Hi|]. now split.
  - apply buildPins_elem. exists B. cbn.
    split; [eapply list_elem_of_lookup_2; exact Hj|]. now split.
  - cbn. split.
    + replace (radius * 1.012) with (radius * 1.01 * (1.012 / 1.01)) by (field; lra).
      apply latLonToVec3_scaled.
    + replace (radius * 1.012) with (radius * 1.01 * (1.012 / 1.01)) by (field; lra).
      apply latLonToVec3_scaled.
Qed.

(** The page's route on the page's globe. *)
Lemma arcs_end_at_pins_witness :
  exists arcs,
    RoutesWow_arcs 1.25 = Return arcs /\
    Forall (fun arc =>
              exists pinA pinB : Pin.t,
                pinA ∈ buildPins ROUTE CITY 1.25 /\
                pinB ∈ buildPins ROUTE CITY 1.25 /\
                key arc = (Pin.name pinA +:+ "-" +:+ Pin.name pinB))
           arcs.
Proof.
  destruct (arcs_end_at_pins ROUTE CITY 1.25) as (arcs & Hbuild & Harcs).
  - refine (bool_decide_unpack _ _). vm_compute. exact I.
  - exists arcs. split; [exact Hbuild|].
    eapply Forall_impl; [exact Harcs|].
    intros arc (pinA & pinB & _ & _ & _ & HA & HB & Hkey & _).
    exists pinA, pinB. split; [exact HA|]. split; [exact HB | exact Hkey].
Defined.

(** ** The dashes *)

Lemma dashFrame_compose (d1 d2 : R) (mats : list (option LineMaterial)) :
  dashFrame d2 (dashFrame d1 mats) = dashFrame (d1 + d2) mats.
Proof.
  unfold dashFrame. rewrite <- list_fmap_compose. apply list_fmap_ext.
  intros _ [[[offset|]]|] _; cbn; try reflexivity.
  do 3 f_equal. ring.
Qed.

Lemma dashFrame_zero (mats : list (option LineMaterial)) : dashFrame 0 mats = mats.
Proof.
  unfold dashFrame. rewrite <- (list_fmap_id mats) at 2. apply list_fmap_ext.
  intros _ [[[offset|]]|] _; cbn; try reflexivity.
  do 3 f_equal. ring.
Qed.

(** X10.  The dash offsets after any sequence of frames depend on the
    total time of the frames only: every numeric offset has gone down by
    [0.42] per second, whatever the split into frames, and the slots
    that hold no material, or no numeric offset, are left as they
    were. *)
Theorem dashFrame_frames (deltas : list R) (mats : list (option LineMaterial)) :
  foldl (fun mats delta => dashFrame delta mats) mats deltas
    = dashFrame (total deltas) mats /\
  List.length (dashFrame (total deltas) mats) = List.length mats /\
  forall i : nat,
    dashFrame (total deltas) mats !! i
      = match mats !! i with
        | Some (Some (mkLineMaterial (Some offset))) =>
          Some (Some (mkLineMaterial (Some (offset - total deltas * 0.42))))
        | other => other
        end.
Proof.
  split; [|split].
  - revert mats. induction deltas as [|d deltas IH]; intros mats; cbn.
    + now rewrite dashFrame_zero.
    + now rewrite IH, dashFrame_compose.
  - unfold dashFrame. apply length_fmap.
  - intros i. unfold dashFrame. rewrite list_lookup_fmap.
    destruct (mats !! i) as [[[[offset|]]|]|]; reflexivity.
Qed.

(** ** The pulse of the pins *)

Lemma pinStep_length (t : R) (pinsRef : list (option Mesh.t)) (i : nat) :
  List.length (pinStep t pinsRef i) = List.length pinsRef.
Proof.
  unfold pinStep. destruct (pinsRef !! i) as [[pin|]|]; try reflexivity.
  apply length_insert.
Qed.

Lemma pinStep_lookup (t : R) (pinsRef : list (option Mesh.t)) (i j : nat) :
  pinStep t pinsRef i !! j
    = if decide (i = j)
      then match pinsRef !! j with
           | Some (Some pin) =>
             Some (Some (Mesh.new (Mesh.position pin)
                                  (0.008 + sin (t * 2.8 + INR j) * 0.0016)
                                  (Mesh.opacity pin)))
           | other => other
           end
      else pinsRef !! j.
Proof.
  unfold pinStep. destruct (decide (i = j)) as [-> | Hne].
  - destruct (pinsRef !! j) as [[pin|]|] eqn:Hj; try exact Hj.
    apply list_lookup_insert_eq. now apply lookup_lt_Some in Hj.
  - destruct (pinsRef !! i) as [[pin|]|]; try reflexivity.
    now apply list_lookup_insert_ne.
Qed.

Lemma pin_loop_lookup (t : R) (n : nat) (pinsRef : list (option Mesh.t)) (j : nat) :
  foldl (pinStep t) pinsRef (seq 0 n) !! j
    = match pinsRef !! j with
      | Some (Some pin) =>
        Some (Some (if (j <? n)%nat
                    then Mesh.new (Mesh.position pin)
                                  (0.008 + sin (t * 2.8 + INR j) * 0.0016)
                                  (Mesh.opacity pin)
                    else pin))
      | other => other
      end.
Proof.
  induction n as [|n IH].
  - cbn. destruct (pinsRef !! j) as [[pin|]|]; reflexivity.
  - rewrite seq_S, foldl_app. cbn [foldl Nat.add]. rewrite pinStep_lookup.
    destruct (decide (n = j)) as [-> | Hne].
    + rewrite IH. destruct (pinsRef !! j) as [[pin|]|]; try reflexivity.
      rewrite (proj2 (Nat.ltb_ge j j)) by lia.
      rewrite (proj2 (Nat.ltb_lt j (S j))) by lia. reflexivity.
    + rewrite IH. destruct (pinsRef !! j) as [[pin|]|]; try reflexivity.
      destruct (j <? n)%nat eqn:Hlt.
      * apply Nat.ltb_lt in Hlt. rewrite (proj2 (Nat.ltb_lt j (S n))) by lia. reflexivity.
      * apply Nat.ltb_ge in Hlt. rewrite (proj2 (Nat.ltb_ge j (S n))) by lia. reflexivity.
Qed.

(** X11.  A frame gives every pin mesh that exists, among the first
    [pins.length] slots, the scale [0.008 + 0.0016 sin(2.8 t + i)], a
    value between 0.0064 and 0.0096, and leaves its position and opacity
    alone; empty slots and slots beyond the pins are untouched, and no
    slot is added or removed. *)
Theorem pinFrame_pulse (t : R) (pins : list Pin.t) (pinsRef : list (option Mesh.t)) :
  List.length (pinFrame t pins pinsRef) = List.length pinsRef /\
  (forall i : nat,
      pinFrame t pins pinsRef !! i
        = match pinsRef !! i with
          | Some (Some pin) =>
            Some (Some (if (i <? List.length pins)%nat
                        then Mesh.new (Mesh.position pin)
                                      (0.008 + sin (t * 2.8 + INR i) * 0.0016)
                                      (Mesh.opacity pin)
                        else pin))
          | other => other
          end) /\
  (forall i : nat, 0.0064 <= 0.008 + sin (t * 2.8 + INR i) * 0.0016 <= 0.0096).
Proof.
  split; [|split].
  - unfold pinFrame. induction (List.length pins) as [|n IH]; [reflexivity|].
    rewrite seq_S, foldl_app. cbn [foldl]. now rewrite pinStep_length.
  - intros i. apply pin_loop_lookup.
  - intros i. pose proof (SIN_bound (t * 2.8 + INR i)). lra.
Qed.

(** ** The halo *)

(** X12.  Whatever the clock, the halo's scale stays between 0.94 and
    1.06 and its opacity between 0.18 and 0.26; the two pulse together,
    [opacity = 0.22 + (scale - 1) * 2 / 3], and the ring is not moved. *)
Theorem AfricaHalo_pulse (t : R) (ring : Mesh.t) :
  let ring' := AfricaHalo_useFrame t ring in
  0.94 <= Mesh.scale ring' <= 1.06 /\
  0.18 <= Mesh.opacity ring' <= 0.26 /\
  Mesh.opacity ring' = 0.22 + (Mesh.scale ring' - 1) * 2 / 3 /\
  Mesh.position ring' = Mesh.position ring.
Proof.
  cbv zeta. unfold AfricaHalo_useFrame. cbn.
  pose proof (SIN_bound (t * 2.2)). repeat split; lra.
Qed.

(** ** The rotation of the globe *)

Lemma total_snoc (deltas : list R) (delta : R) :
  total (deltas ++ [delta]) = total deltas + delta.
Proof.
  unfold total. induction deltas as [|d deltas IH]; cbn; [lra|].
  rewrite IH. lra.
Qed.

Lemma EarthGroup_frames_snoc (ticks : list (R * R)) (tick : R * R) (rotation : Euler.t) :
  EarthGroup_frames (ticks ++ [tick]) rotation
    = EarthGroup_useFrame tick.1 tick.2 (EarthGroup_frames ticks rotation).
Proof. unfold EarthGroup_frames. now rewrite foldl_app. Qed.

(** X13.  After any frames the globe has turned about its axis by 0.12
    radian per second of frame time, whatever the split into frames; its
    tilt about [x] stays within 0.03 of the initial 0.18 and its tilt
    about [z] within 0.02 of zero, whatever [performance.now()] gives. *)
Theorem EarthGroup_rotation (ticks : list (R * R)) :
  let rotation := EarthGroup_frames ticks initialRotation in
  Euler.y rotation = 1.85 + total (fst <$> ticks) * 0.12 /\
  0.15 <= Euler.x rotation <= 0.21 /\
  -0.02 <= Euler.z rotation <= 0.02.
Proof.
  cbv zeta. induction ticks as [|tick ticks IH] using rev_ind.
  - cbn. lra.
  - rewrite EarthGroup_frames_snoc. destruct IH as (Hy & _ & _).
    unfold EarthGroup_useFrame. cbn [Euler.x Euler.y Euler.z initialRotation].
    cbv zeta. cbn [Euler.x Euler.y Euler.z]. rewrite Hy.
    rewrite fmap_app. cbn [fmap list_fmap].
    rewrite total_snoc.
    pose proof (SIN_bound (tick.2 * 0.001 * 0.35)).
    pose proof (SIN_bound (tick.2 * 0.001 * 0.25)).
    repeat split; lra.
Qed.

(** ** The remainder *)

Lemma rem_unit (x : R) : 0 <= x -> rem x 1 = x - IZR (Math.floor x).
Proof.
  intros Hx. unfold rem, trunc. rewrite Rdiv_1_r.
  destruct (Rle_dec 0 x); [|contradiction]. unfold Math.floor. ring.
Qed.

Lemma rem_unit_range (x : R) : 0 <= x -> 0 <= rem x 1 < 1.
Proof.
  intros Hx. rewrite rem_unit by exact Hx. pose proof (floor_bounds x). lra.
Qed.

Lemma rem_unit_small (x : R) : 0 <= x < 1 -> rem x 1 = x.
Proof.
  intros Hx. rewrite rem_unit by lra.
  replace (Math.floor x) with 0%Z; [lra|].
  unfold Math.floor. apply Int_part_spec. lra.
Qed.

Lemma rem_unit_wrap (x : R) : 1 <= x < 2 -> rem x 1 = x - 1.
Proof.
  intros Hx. rewrite rem_unit by lra.
  replace (Math.floor x) with 1%Z; [lra|].
  unfold Math.floor. apply Int_part_spec. lra.
Qed.

(** ** Every fraction of an arc has a point *)

Section SearchBrackets.

Variable arcLengths : list R.
Variable targetArcLength : R.

Hypothesis ascending :
  forall (i j : nat) (li lj : R),
    (i <= j)%nat -> arcLengths !! i = Some li -> arcLengths !! j = Some lj -> li <= lj.

(** The search ends, on an index that holds the target or on the last
    index below it. *)
Lemma search_brackets (fuel : nat) :
  forall low high : Z,
    (0 <= low)%Z -> (high < Z.of_nat (List.length arcLengths))%Z ->
    (low <= high + 1)%Z ->
    (high - low + 1 < 2 ^ (Z.of_nat fuel - 1))%Z ->
    (forall (j : nat) (lj : R),
        (Z.of_nat j < low)%Z -> arcLengths !! j = Some lj -> lj < targetArcLength) ->
    (forall (j : nat) (lj : R),
        (high < Z.of_nat j)%Z -> arcLengths !! j = Some lj -> targetArcLength < lj) ->
    exists i : Z,
      CatmullRomCurve3.search arcLengths targetArcLength fuel low high = Return i /\
      (low - 1 <= i <= high)%Z /\
      ((0 <= i)%Z /\ arcLengths !! Z.to_nat i = Some targetArcLength \/
       (forall (j : nat) (lj : R),
           (Z.of_nat j <= i)%Z -> arcLengths !! j = Some lj -> lj < targetArcLength) /\
       (forall (j : nat) (lj : R),
           (i < Z.of_nat j)%Z -> arcLengths !! j = Some lj -> targetArcLength < lj)).
Proof.
  induction fuel as [|fuel IH]; intros low high Hlow Hhigh Hspan Hfuel Hbelow Habove.
  - change (2 ^ (Z.of_nat 0 - 1))%Z with 0%Z in Hfuel. lia.
  - replace (Z.of_nat (S fuel) - 1)%Z with (Z.of_nat fuel) in Hfuel by lia.
    cbn [CatmullRomCurve3.search].
    destruct (low <=? high)%Z eqn:Hle.
    2:{ apply Z.leb_gt in Hle. exists high. split; [reflexivity|]. split; [lia|].
        right. split; [|exact Habove].
        intros j lj Hj. apply Hbelow. lia. }
    apply Z.leb_le in Hle.
    assert (Hpow : (2 ^ Z.of_nat fuel = 2 * 2 ^ (Z.of_nat fuel - 1))%Z).
    { destruct fuel as [|fuel']; [change (2 ^ Z.of_nat 0)%Z with 1%Z in Hfuel; lia|].
      replace (Z.of_nat (S fuel') - 1)%Z with (Z.of_nat fuel') by lia.
      rewrite Nat2Z.inj_succ. apply Z.pow_succ_r. lia. }
    set (i := (low + (high - low) / 2)%Z).
    assert (Hhalf : (2 * ((high - low) / 2) <= high - low < 2 * ((high - low) / 2) + 2)%Z).
    { pose proof (Z.mul_div_le (high - low) 2 ltac:(lia)).
      pose proof (Z.mul_succ_div_gt (high - low) 2 ltac:(lia)). lia. }
    assert (Hi : (low <= i <= high)%Z) by (unfold i; lia).
    destruct (lookup_lt_is_Some_2 arcLengths (Z.to_nat i)) as [li Hli]; [lia|].
    rewrite (elem_Return arcLengths i li) by (lia || assumption).
    rewrite Exc_bind_Return. cbv zeta.
    destruct (ltb (li - targetArcLength) 0) eqn:Hlt.
    + apply ltb_true in Hlt.
      destruct (IH (i + 1)%Z high) as (i' & Hsearch & Hi' & Hfound);
        try (unfold i; lia); try exact Habove.
      * intros j lj Hj Hlj.
        pose proof (ascending j (Z.to_nat i) lj li ltac:(lia) Hlj Hli). lra.
      * exists i'. split; [exact Hsearch|]. split; [lia | exact Hfound].
    + apply ltb_false in Hlt.
      destruct (ltb 0 (li - targetArcLength)) eqn:Hgt.
      * apply ltb_true in Hgt.
        destruct (IH low (i - 1)%Z) as (i' & Hsearch & Hi' & Hfound);
          try (unfold i; lia); try exact Hbelow.
        -- intros j lj Hj Hlj.
           pose proof (ascending (Z.to_nat i) j li lj ltac:(lia) Hli Hlj). lra.
        -- exists i'. split; [exact Hsearch|]. split; [lia | exact Hfound].
      * apply ltb_false in Hgt.
        exists i. split; [reflexivity|]. split; [lia|]. left. split; [lia|].
        rewrite Hli. f_equal. lra.
Qed.

End SearchBrackets.

Section PointAtReturns.

Variables a m b : Vector3.t.

Let curve3 := CatmullRomCurve3.new [a; m; b].
Let pt : nat -> Vector3.t := sample curve3 200.

Lemma getUtoTmapping_returns (u : R) :
  0 <= u <= 1 ->
  exists t : R, CatmullRomCurve3.getUtoTmapping curve3 u = Return t /\ 0 <= t <= 1.
Proof.
  intros Hu. unfold CatmullRomCurve3.getUtoTmapping.
  unfold curve3. rewrite (getLengths_samples a m b 200) by lia. fold curve3. fold pt.
  rewrite Exc_bind_Return.
  set (arcLengths := chordSum pt <$> seq 0 201).
  assert (Hlen : List.length arcLengths = 201%nat)
    by (unfold arcLengths; now rewrite length_fmap, length_seq).
  rewrite Hlen. change (Z.of_nat 201 - 1)%Z with 200%Z.
  assert (Hlookup : forall j, (j < 201)%nat -> arcLengths !! j = Some (chordSum pt j))
    by (intros j Hj; now apply lookup_chordSums).
  assert (Hrange : forall j lj, arcLengths !! j = Some lj ->
                                (j < 201)%nat /\ lj = chordSum pt j).
  { intros j lj Hj. assert (j < 201)%nat by (apply lookup_lt_Some in Hj; lia).
    split; [assumption|]. rewrite Hlookup in Hj by assumption. now injection Hj. }
  rewrite (elem_Return arcLengths 200 (chordSum pt 200));
    [|lia | change (Z.to_nat 200) with 200%nat; apply Hlookup; lia].
  rewrite Exc_bind_Return. cbv zeta.
  assert (Hwhole : 0 <= chordSum pt 200)
    by (apply (chordSum_ascending pt 0 200); lia).
  set (target := u * chordSum pt 200).
  assert (Htarget : 0 <= target <= chordSum pt 200) by (unfold target; nra).
  destruct (search_brackets arcLengths target) with (fuel := 201%nat)
    (low := 0%Z) (high := 200%Z) as (i & Hsearch & Hi & Hfound); try lia.
  - intros i j li lj Hij Hli Hlj.
    apply Hrange in Hli as [_ ->]. apply Hrange in Hlj as [_ ->].
    now apply chordSum_ascending.
  - intros j lj Hj Hlj. apply Hrange in Hlj as [Hlt _]. lia.
  - rewrite Hsearch, Exc_bind_Return.
    destruct Hfound as [[Hi0 Hexact] | [Hbelow Habove]].
    + rewrite (elem_Return arcLengths i _ Hi0 Hexact), Exc_bind_Return.
      replace (eqb target target) with true
        by (unfold eqb; destruct (Req_dec_T _ _); [reflexivity | contradiction]).
      eexists. split; [reflexivity|].
      assert (0 <= IZR i <= 200) by (split; apply IZR_le; lia).
      lra.
    + assert (Hi0 : (0 <= i)%Z).
      { destruct (Z_lt_le_dec i 0) as [Hneg | Hok]; [|exact Hok].
        pose proof (Habove 0%nat (chordSum pt 0) ltac:(lia) (Hlookup 0%nat ltac:(lia))) as H0.
        change (chordSum pt 0) with 0 in H0. lra. }
      assert (Hli : arcLengths !! Z.to_nat i = Some (chordSum pt (Z.to_nat i)))
        by (apply Hlookup; lia).
      pose proof (Hbelow (Z.to_nat i) _ ltac:(lia) Hli) as Hless.
      assert (Hi200 : (i < 200)%Z).
      { destruct (Z_lt_le_dec i 200) as [Hok | Hbig]; [exact Hok|].
        assert (i = 200%Z) as -> by lia.
        change (Z.to_nat 200) with 200%nat in Hless. lra. }
      assert (Hla : arcLengths !! Z.to_nat (i + 1) = Some (chordSum pt (Z.to_nat (i + 1))))
        by (apply Hlookup; lia).
      pose proof (Habove (Z.to_nat (i + 1)) _ ltac:(lia) Hla) as Hmore.
      rewrite (elem_Return arcLengths i _ Hi0 Hli), Exc_bind_Return.
      replace (eqb (chordSum pt (Z.to_nat i)) target) with false
        by (unfold eqb; destruct (Req_dec_T _ _); [lra | reflexivity]).
      rewrite (elem_Return arcLengths (i + 1) _ ltac:(lia) Hla), Exc_bind_Return.
      eexists. split; [reflexivity|].
      set (li := chordSum pt (Z.to_nat i)) in *.
      set (la := chordSum pt (Z.to_nat (i + 1))) in *.
      assert (Hfrac : 0 < (target - li) / (la - li) < 1).
      { split.
        - apply Rdiv_lt_0_compat; lra.
        - apply Rmult_lt_reg_r with (la - li); [lra|].
          unfold Rdiv. rewrite Rmult_assoc, Rinv_l by lra. lra. }
      assert (0 <= IZR i <= 199) by (split; apply IZR_le; lia).
      lra.
Qed.

Lemma getPointAt_returns (u : R) :
  0 <= u <= 1 -> exists v, CatmullRomCurve3.getPointAt curve3 u = Return v.
Proof.
  intros Hu. destruct (getUtoTmapping_returns u Hu) as (t & Ht & Hrange).
  unfold CatmullRomCurve3.getPointAt. rewrite Ht, Exc_bind_Return.
  apply getPoint_returns. exact Hrange.
Qed.

End PointAtReturns.

(** ** The comets *)

Lemma sameMeshes_refl (trail : list (option Mesh.t)) : sameMeshes trail trail.
Proof. unfold sameMeshes. induction trail; constructor; tauto. Qed.

Lemma sameMeshes_trans (t1 t2 t3 : list (option Mesh.t)) :
  sameMeshes t1 t2 -> sameMeshes t2 t3 -> sameMeshes t1 t3.
Proof.
  unfold sameMeshes. intros H12. revert t3.
  induction H12 as [|m1 m2 t1 t2 Hm _ IH]; intros t3 H23; inversion H23; subst;
    constructor; [tauto | now apply IH].
Qed.

Lemma sameTrails_refl (dots : list (option (list (option Mesh.t)))) : sameTrails dots dots.
Proof.
  unfold sameTrails. induction dots as [|[trail|] dots IH]; constructor;
    try assumption; constructor. apply sameMeshes_refl.
Qed.

Lemma sameTrails_trans (d1 d2 d3 : list (option (list (option Mesh.t)))) :
  sameTrails d1 d2 -> sameTrails d2 d3 -> sameTrails d1 d3.
Proof.
  unfold sameTrails. intros H12. revert d3.
  induction H12 as [|o1 o2 d1 d2 Ho _ IH]; intros d3 H23; inversion H23; subst;
    constructor; [|now apply IH].
  destruct Ho; match goal with H : option_Forall2 _ _ _ |- _ => inversion H; subst end;
    constructor. eapply sameMeshes_trans; eassumption.
Qed.

(** A loop whose turns all return and keep an invariant returns and
    keeps it. *)
Lemma for_loop_returns {St : Type} (Inv : St -> Prop) (body : St -> nat -> Exc St)
    (count : nat) :
  forall (start : nat) (s : St),
    Inv s ->
    (forall (s : St) (i : nat),
        (start <= i < start + count)%nat -> Inv s ->
        exists s', body s i = Return s' /\ Inv s') ->
    exists s', for_loop body start count s = Return s' /\ Inv s'.
Proof.
  induction count as [|count IH]; intros start s Hs Hbody; cbn [for_loop].
  - exists s. now split.
  - destruct (Hbody s start ltac:(lia) Hs) as (s1 & Hstep & Hs1).
    rewrite Hstep, Exc_bind_Return.
    apply IH; [exact Hs1|]. intros s2 i Hi. apply Hbody. lia.
Qed.

Lemma offsets_lookup (k : nat) :
  (k < 3)%nat ->
  exists offset, elem offsets (Z.of_nat k) = Return offset /\
                 offsets !! k = Some offset /\ 0 <= offset <= 0.036.
Proof.
  intros Hk. destruct k as [|[|[|k]]]; [| | |lia].
  - exists 0. repeat split; try reflexivity; lra.
  - exists 0.018. repeat split; try reflexivity; lra.
  - exists 0.036. repeat split; try reflexivity; lra.
Qed.

(** X14.  The marker [k] of a comet whose head stands at the fraction
    [base] is put on its arc at the fraction [base - offsets[k]], wrapped
    into [0, 1): the head at [base] itself, the others 0.018 and 0.036
    behind.  Its size is [0.010 - 0.0025 k + 0.001 sin(6 t + i)], between
    0.004 and 0.011, so the floor [Math.max(0.003, .)] never takes
    effect and the markers shrink from head to tail at every instant;
    no other mesh of the trail is touched. *)
Theorem markerStep_places (t : R) (i k : nat) (arc : Arc) (base : R)
    (trail : list (option Mesh.t)) (mesh : Mesh.t) (a m b : Vector3.t) :
  curve arc = CatmullRomCurve3.new [a; m; b] ->
  0 <= base < 1 -> (k < 3)%nat -> trail !! k = Some (Some mesh) ->
  exists (offset u : R) (position : Vector3.t),
    offsets !! k = Some offset /\
    0 <= u < 1 /\
    (u = base - offset \/ u = base - offset + 1) /\
    (k = 0%nat -> u = base) /\
    CatmullRomCurve3.getPointAt (curve arc) u = Return position /\
    0.004 <= 0.010 - INR k * 0.0025 + sin (t * 6 + INR i) * 0.001 <= 0.011 /\
    markerStep t i arc base trail k
      = Return (<[k := Some (Mesh.new position
                               (0.010 - INR k * 0.0025 + sin (t * 6 + INR i) * 0.001)
                               (if (k =? 0)%nat then 0.95
                                else if (k =? 1)%nat then 0.55 else 0.25))]> trail).
Proof.
  intros Hcurve Hbase Hk Hmesh.
  destruct (offsets_lookup k Hk) as (offset & Helem & Hoffset & Hrange).
  assert (Hu : 0 <= rem (base - offset + 1) 1 < 1) by (apply rem_unit_range; lra).
  assert (Hwrap : rem (base - offset + 1) 1 = base - offset
                  \/ rem (base - offset + 1) 1 = base - offset + 1).
  { destruct (Rle_dec offset base) as [Hle | Hgt].
    - left. rewrite rem_unit_wrap by lra. lra.
    - right. apply rem_unit_small. lra. }
  destruct (getPointAt_returns a m b (rem (base - offset + 1) 1)) as [position Hposition];
    [lra|].
  assert (Hsize : 0.004 <= 0.010 - INR k * 0.0025 + sin (t * 6 + INR i) * 0.001 <= 0.011).
  { pose proof (SIN_bound (t * 6 + INR i)).
    assert (0 <= INR k <= 2).
    { split; [apply pos_INR|]. change 2 with (INR 2). apply le_INR. lia. }
    lra. }
  exists offset, (rem (base - offset + 1) 1), position.
  split; [exact Hoffset|]. split; [exact Hu|]. split; [exact Hwrap|].
  split.
  { intros ->. cbn in Hoffset. injection Hoffset as <-.
    rewrite rem_unit_wrap by lra. lra. }
  split; [now rewrite Hcurve|]. split; [exact Hsize|].
  unfold markerStep. rewrite Hmesh, Helem, Exc_bind_Return. cbv zeta.
  rewrite Hcurve, Hposition, Exc_bind_Return.
  rewrite Rmax_right by lra. reflexivity.
Qed.

(** The comet on the arc from Lome to Libreville, head at a quarter of
    the way: the second marker is placed on the arc. *)
Lemma markerStep_places_witness :
  exists (offset u : R) (position : Vector3.t),
    offsets !! 1%nat = Some offset /\ 0 <= u < 1 /\
    CatmullRomCurve3.getPointAt
      (buildArcCurve (latLonToVec3 6.1319 1.2228 1.2625)
                     (latLonToVec3 0.4162 9.4673 1.2625) 0.32) u = Return position.
Proof.
  destruct (markerStep_places 0 0 1
              (mkArc "Lome-Libreville"
                     (buildArcCurve (latLonToVec3 6.1319 1.2228 1.2625)
                                    (latLonToVec3 0.4162 9.4673 1.2625) 0.32)
                     [] 0)
              0.25 [None; Some (Mesh.new (Vector3.new 0 0 0) 1 0.7)]
              (Mesh.new (Vector3.new 0 0 0) 1 0.7) _ _ _
              eq_refl ltac:(lra) ltac:(lia) eq_refl)
    as (offset & u & position & Hoffset & Hu & _ & _ & Hpos & _).
  exists offset, u, position. split; [exact Hoffset|]. split; [exact Hu|exact Hpos].
Defined.

Lemma markerStep_returns (t : R) (i : nat) (arc : Arc) (base : R) (a m b : Vector3.t)
    (trail : list (option Mesh.t)) (k : nat) :
  curve arc = CatmullRomCurve3.new [a; m; b] ->
  0 <= base < 1 -> (k < 3)%nat ->
  exists trail', markerStep t i arc base trail k = Return trail' /\ sameMeshes trail trail'.
Proof.
  intros Hcurve Hbase Hk. unfold markerStep.
  destruct (trail !! k) as [[mesh|]|] eqn:Hmesh;
    [|eexists; split; [reflexivity | apply sameMeshes_refl]..].
  destruct (offsets_lookup k Hk) as (offset & Helem & _ & Hrange).
  rewrite Helem, Exc_bind_Return. cbv zeta.
  assert (Hu : 0 <= rem (base - offset + 1) 1 < 1) by (apply rem_unit_range; lra).
  destruct (getPointAt_returns a m b (rem (base - offset + 1) 1)) as [position Hposition];
    [lra|].
  rewrite Hcurve, Hposition, Exc_bind_Return.
  eexists. split; [reflexivity|].
  rewrite <- (list_insert_id trail k (Some mesh) Hmesh) at 1.
  apply Forall2_insert; [apply sameMeshes_refl|].
  split; intros _; eexists; reflexivity.
Qed.

Lemma cometStep_returns (t : R) (arcs : list Arc)
    (dots : list (option (list (option Mesh.t)))) (i : nat) :
  0 <= t ->
  Forall (fun arc => exists a m b, curve arc = CatmullRomCurve3.new [a; m; b]
                                   /\ 0 <= phase arc) arcs ->
  (i < List.length arcs)%nat ->
  exists dots', cometStep t arcs dots i = Return dots' /\ sameTrails dots dots'.
Proof.
  intros Ht Harcs Hi. unfold cometStep.
  destruct (dots !! i) as [[trail|]|] eqn:Htrail;
    [|eexists; split; [reflexivity | apply sameTrails_refl]..].
  destruct (lookup_lt_is_Some_2 arcs i Hi) as [arc Harc].
  rewrite (elem_Return arcs (Z.of_nat i) arc); [|lia|now rewrite Nat2Z.id].
  rewrite Exc_bind_Return. cbv zeta.
  destruct (proj1 (Forall_lookup _ arcs) Harcs i arc Harc) as (a & m & b & Hcurve & Hphase).
  assert (Hbase : 0 <= rem (t * 0.09 + phase arc) 1 < 1)
    by (apply rem_unit_range; nra).
  destruct (for_loop_returns (sameMeshes trail)
              (markerStep t i arc (rem (t * 0.09 + phase arc) 1))
              (List.length offsets) 0 trail (sameMeshes_refl trail))
    as (trail' & Hloop & Hsame).
  { intros s k Hk Hs.
    destruct (markerStep_returns t i arc (rem (t * 0.09 + phase arc) 1) a m b s k
                Hcurve Hbase) as (s' & Hstep & Hs'); [cbn in Hk; lia|].
    exists s'. split; [exact Hstep|]. eapply sameMeshes_trans; eassumption. }
  rewrite Hloop, Exc_bind_Return.
  eexists. split; [reflexivity|].
  unfold sameTrails.
  rewrite <- (list_insert_id dots i (Some trail) Htrail) at 1.
  apply Forall2_insert; [apply sameTrails_refl|].
  constructor. exact Hsame.
Qed.

Lemma cometFrame_returns (t : R) (arcs : list Arc)
    (dots : list (option (list (option Mesh.t)))) :
  0 <= t ->
  Forall (fun arc => exists a m b, curve arc = CatmullRomCurve3.new [a; m; b]
                                   /\ 0 <= phase arc) arcs ->
  exists dots', cometFrame t arcs dots = Return dots' /\ sameTrails dots dots'.
Proof.
  intros Ht Harcs. unfold cometFrame.
  apply (for_loop_returns (sameTrails dots)); [apply sameTrails_refl|].
  intros s i Hi Hs.
  destruct (cometStep_returns t arcs s i Ht Harcs) as (s' & Hstep & Hs'); [lia|].
  exists s'. split; [exact Hstep|]. eapply sameTrails_trans; eassumption.
Qed.

Lemma arcAt_curves (route : list string) (table : gmap string City) (radius : R)
    (indices : list nat) (arcs : list Arc) :
  Forall2 (arcAt route table radius) indices arcs ->
  Forall (fun arc => exists a m b, curve arc = CatmullRomCurve3.new [a; m; b]
                                   /\ 0 <= phase arc) arcs.
Proof.
  induction 1 as [|i arc indices arcs Harc _ IH]; constructor; [|exact IH].
  destruct Harc as (? & ? & A & B & _ & _ & _ & _ & _ & Hcurve & _ & _ & Hphase).
  rewrite Hcurve, Hphase. do 3 eexists. split; [reflexivity|].
  pose proof (pos_INR i). nra.
Qed.

(** X15.  From the first instant on, the frame callback of the routes
    never throws, whatever meshes are mounted: the arcs of the page are
    built, every marker present gets a point of its arc, and the frame
    leaves [dots.current] with the same trails and the same meshes
    present, the dash offsets moved by [0.42 delta] and the pins
    pulsed. *)
Theorem RoutesWow_useFrame_returns (radius t delta : R) (refs : Refs) :
  0 <= t ->
  exists (arcs : list Arc) (refs' : Refs),
    RoutesWow_arcs radius = Return arcs /\
    RoutesWow_useFrame t delta arcs (buildPins ROUTE CITY radius) refs = Return refs' /\
    sameTrails (dots refs) (dots refs') /\
    dashMats refs' = dashFrame delta (dashMats refs) /\
    pinsRef refs' = pinFrame t (buildPins ROUTE CITY radius) (pinsRef refs).
Proof.
  intros Ht.
  destruct (buildArcs_spec ROUTE CITY radius) as (arcs & Harcs & Hat).
  destruct (cometFrame_returns t arcs (dots refs) Ht (arcAt_curves _ _ _ _ _ Hat))
    as (dots' & Hframe & Hsame).
  exists arcs. eexists. split; [exact Harcs|].
  unfold RoutesWow_useFrame. rewrite Hframe, Exc_bind_Return.
  split; [reflexivity|]. split; [exact Hsame|]. split; reflexivity.
Qed.

(** The first frame, with the head and the tail of the first comet
    mounted and no second trail. *)
Lemma RoutesWow_useFrame_returns_witness :
  exists (arcs : list Arc) (refs' : Refs),
    RoutesWow_arcs 1.25 = Return arcs /\
    RoutesWow_useFrame 0 0.016 arcs (buildPins ROUTE CITY 1.25)
      (mkRefs [None]
              [Some [Some (Mesh.new (Vector3.new 0 0 0) 1 0.7); None;
                     Some (Mesh.new (Vector3.new 0 0 0) 1 0.7)]; None]
              []) = Return refs' /\
    sameTrails [Some [Some (Mesh.new (Vector3.new 0 0 0) 1 0.7); None;
                      Some (Mesh.new (Vector3.new 0 0 0) 1 0.7)]; None]
               (dots refs').
Proof.
  destruct (RoutesWow_useFrame_returns 1.25 0 0.016
              (mkRefs [None]
                      [Some [Some (Mesh.new (Vector3.new 0 0 0) 1 0.7); None;
                             Some (Mesh.new (Vector3.new 0 0 0) 1 0.7)]; None]
                      [])
              ltac:(lra))
    as (arcs & refs' & Harcs & Hframe & Hsame & _).
  exists arcs, refs'. split; [exact Harcs|]. split; [exact Hframe | exact Hsame].
Defined.

(** ** A click on a pin *)

Lemma length_latLonToVec3 (lat lon radius : R) :
  0 <= radius -> Vector3.length (latLonToVec3 lat lon radius) = radius.
Proof.
  intros Hr. unfold Vector3.length. rewrite lengthSq_latLonToVec3.
  now apply sqrt_square.
Qed.

(** X16.  A click on a pin of a globe of radius [radius > 0] sends the
    camera along the ray from the centre through the pin, to the
    distance 3.2, and the look-at point to the distance
    [0.8602 radius], inside the globe; the rig takes the target at once
    and the click itself moves neither the camera nor the controls. *)
Theorem onClick_pin {Widget : Type} (route : list string) (table : gmap string City)
    (radius : R) (p : Pin.t) (s : Scene Widget) :
  0 < radius -> p ∈ buildPins route table radius ->
  exists ft : FocusTarget,
    focusTarget (onClick p s) = Some ft /\
    current (onClick p s) = Some ft /\
    camPos ft = Vector3.multiplyScalar (Pin.pos p) (3.2 / (radius * 1.012)) /\
    lookAt ft = Vector3.multiplyScalar (Pin.pos p) 0.85 /\
    Vector3.length (camPos ft) = 3.2 /\
    Vector3.length (lookAt ft) = radius * 0.8602 /\
    Vector3.length (lookAt ft) < radius /\
    camera_position (onClick p s) = camera_position s /\
    controlsRef (onClick p s) = controlsRef s.
Proof.
  intros Hr Hp. apply buildPins_elem in Hp as (c & _ & _ & Hpos).
  assert (Hlen : Vector3.length (Pin.pos p) = radius * 1.012)
    by (rewrite Hpos; apply length_latLonToVec3; lra).
  assert (Hne : Vector3.length (Pin.pos p) <> 0) by (rewrite Hlen; lra).
  assert (Hdir : Vector3.normalize (Pin.pos p)
                 = Vector3.multiplyScalar (Pin.pos p) (1 / (radius * 1.012))).
  { unfold Vector3.normalize, Vector3.divideScalar.
    destruct (Req_dec_T (Vector3.length (Pin.pos p)) 0); [contradiction|].
    now rewrite Hlen. }
  assert (Hlook : Vector3.length (Vector3.multiplyScalar (Pin.pos p) 0.85)
                  = radius * 0.8602).
  { rewrite length_multiplyScalar, Hlen, Rabs_pos_eq by lra. lra. }
  eexists. split; [reflexivity|]. split; [reflexivity|]. cbn [camPos lookAt].
  split.
  { rewrite Hdir. unfold Vector3.multiplyScalar; cbn. f_equal; field; lra. }
  split; [reflexivity|]. split.
  { rewrite length_multiplyScalar, length_normalize by exact Hne.
    rewrite Rabs_pos_eq; lra. }
  split; [exact Hlook|]. split; [rewrite Hlook; lra|].
  split; reflexivity.
Qed.

(** The pin of Lome on the globe of the page. *)
Lemma onClick_pin_witness :
  exists ft : FocusTarget,
    current (onClick (Pin.new "Lome" (latLonToVec3 6.1319 1.2228 (1.25 * 1.012)))
                     (@initialScene unit)) = Some ft /\
    Vector3.length (camPos ft) = 3.2 /\
    Vector3.length (lookAt ft) = 1.25 * 0.8602.
Proof.
  assert (Hp : Pin.new "Lome" (latLonToVec3 6.1319 1.2228 (1.25 * 1.012))
               ∈ buildPins ROUTE CITY 1.25).
  { apply buildPins_elem. exists (mkCity 6.1319 1.2228).
    split; [constructor | split; reflexivity]. }
  destruct (onClick_pin ROUTE CITY 1.25 _ (@initialScene unit) ltac:(lra) Hp)
    as (ft & _ & Hcur & _ & _ & Hcam & Hlook & _).
  exists ft. split; [exact Hcur|]. split; [exact Hcam | exact Hlook].
Defined.

(** ** How long a flight takes *)

Lemma distanceTo_below (v w : Vector3.t) (bound : R) :
  0 <= bound -> Vector3.distanceToSquared v w < bound * bound ->
  Vector3.distanceTo v w < bound.
Proof.
  intros Hb Hsq. unfold Vector3.distanceTo.
  rewrite <- (sqrt_square bound) by exact Hb.
  apply sqrt_lt_1_alt. split; [apply distanceToSquared_nonneg | exact Hsq].
Qed.

Lemma damping_one : Rpower 0.001 1 = 0.001.
Proof. apply Rpower_1. lra. Qed.

(** X17.  With the orbit controls mounted, their [update()] leaving the
    eased camera position and look-at point in place in every frame, and
    frames of positive delta: while the rig is Converging, after frames
    that cover the time [T] both distances, of the camera and of the
    look-at point to their targets, are the initial ones times
    [0.001 ^ T].  So a flight that starts with both distances at most 9
    is over once the frames have covered a second ([0.001 * 9] is below
    the threshold 0.01), and a flight that starts with one of them at 11
    or more is still on while the frames cover a second or less.  (At the
    distance 10 a second brings the product to the threshold itself,
    where rounding decides.) *)
Theorem flight_time {Widget : Type}
    (update : Vector3.t -> OrbitControls Widget -> Vector3.t * OrbitControls Widget)
    (deltas : nat -> R) (s : Scene Widget) (t : FocusTarget) (c : OrbitControls Widget)
    (n : nat) :
  (forall k : nat, 0 < deltas k) ->
  current s = Some t -> controlsRef s = Some c ->
  (forall k : nat, inPlace update (deltas k) (frames update deltas k s)) ->
  let D := Vector3.distanceTo (camera_position s) (camPos t) in
  let L := Vector3.distanceTo (target c) (lookAt t) in
  (current (frames update deltas n s) = Some t ->
   Vector3.distanceTo (camera_position (frames update deltas n s)) (camPos t)
     = Rpower 0.001 (elapsed deltas n) * D /\
   exists cn : OrbitControls Widget,
     controlsRef (frames update deltas n s) = Some cn /\
     Vector3.distanceTo (target cn) (lookAt t) = Rpower 0.001 (elapsed deltas n) * L) /\
  (D <= 9 -> L <= 9 -> 1 <= elapsed deltas n ->
   current (frames update deltas n s) = None) /\
  (11 <= D \/ 11 <= L -> elapsed deltas n <= 1 ->
   current (frames update deltas n s) = Some t).
Proof.
  intros Hpos Hcur Hctl Hplace D L.
  assert (HD0 : 0 <= D) by apply distanceTo_nonneg.
  assert (HL0 : 0 <= L) by apply distanceTo_nonneg.
  pose proof (damping_positive (elapsed deltas n)) as Hq0.
  split; [|split].
  - apply (frames_distances update deltas s t c Hcur Hctl Hplace n).
  - intros HD HL Htime.
    pose proof (damping_antitone 1 (elapsed deltas n) Htime) as Hq.
    rewrite damping_one in Hq.
    destruct n as [|n]; [cbn in Htime; lra|].
    apply (frames_idle_when_close update deltas s t c Hcur Hctl Hplace n);
      fold D; fold L; nra.
  - intros Hfar Htime.
    pose proof (damping_antitone (elapsed deltas n) 1 Htime) as Hq.
    rewrite damping_one in Hq.
    apply (frames_converging_when_far update deltas s t c Hcur Hctl Hplace n Hpos).
    fold D. fold L. destruct Hfar; [left | right]; nra.
Qed.

(** The camera of the page at its first position, flying to the point
    [(0, 0, 3.2)] at 2 frames per second: Idle after two frames. *)
Lemma flight_time_witness :
  let t := mkFocusTarget (Vector3.new 0 0 3.2) (Vector3.new 0 0 1) in
  let s := mkScene (Some t) (Some t) (Vector3.new 0 0.2 3.4)
                   (Some (mkOrbitControls (Vector3.new 0 0 0) tt)) in
  current (frames (fun p c => (p, c)) (fun _ => / 2) 2 s) = None.
Proof.
  cbv zeta.
  refine (proj1 (proj2 (flight_time (Widget := unit) (fun p c => (p, c)) (fun _ => / 2)
                          (mkScene _ _ (Vector3.new 0 0.2 3.4)
                                   (Some (mkOrbitControls (Vector3.new 0 0 0) tt)))
                          (mkFocusTarget (Vector3.new 0 0 3.2) (Vector3.new 0 0 1))
                          (mkOrbitControls (Vector3.new 0 0 0) tt) 2
                          (fun _ => ltac:(lra)) eq_refl eq_refl _))
            _ _ _).
  - intros k. apply at_rest_inPlace. reflexivity.
  - apply Rlt_le. apply distanceTo_below; [lra|].
    unfold Vector3.distanceToSquared; cbn. lra.
  - apply Rlt_le. apply distanceTo_below; [lra|].
    unfold Vector3.distanceToSquared; cbn. lra.
  - cbn. lra.
Defined.

(** ** The intro audio *)

Lemma Audio_step_invariant (h : Audio.Hook) (e : Audio.Event) :
  (exists a, Audio.audioRef h = Some a /\ Audio.loop a = true /\
             Audio.volume a = Audio.volumeState h /\
             Audio.paused a = negb (Audio.isPlaying h)) ->
  0 <= Audio.volumeState h <= 1 ->
  (Audio.isPlaying h = true -> Audio.audioReady h = true) ->
  (exists a, Audio.audioRef (Audio.step h e) = Some a /\ Audio.loop a = true /\
             Audio.volume a = Audio.volumeState (Audio.step h e) /\
             Audio.paused a = negb (Audio.isPlaying (Audio.step h e))) /\
  0 <= Audio.volumeState (Audio.step h e) <= 1 /\
  (Audio.isPlaying (Audio.step h e) = true -> Audio.audioReady (Audio.step h e) = true) /\
  (Audio.audioReady h = true -> Audio.audioReady (Audio.step h e) = true).
Proof.
  intros (a & Href & Hloop & Hvol & Hpaused) Hrange Hready.
  destruct h as [ref ready playing vol]. cbn in *. subst ref.
  destruct e as [|resolves|v]; cbn.
  - split; [exists a; auto|]. split; [exact Hrange|]. split; auto.
  - unfold Audio.toggle, Audio.pause, Audio.play. cbn.
    destruct playing; cbn.
    + split; [eexists; split; [reflexivity|]; cbn; auto|]. split; [exact Hrange|].
      split; [discriminate | auto].
    + destruct ready; cbn; [destruct resolves; cbn|].
      * split; [eexists; split; [reflexivity|]; cbn; auto|]. split; [exact Hrange|].
        split; auto.
      * split; [exists a; auto|]. split; [exact Hrange|]. split; auto.
      * split; [exists a; auto|]. split; [exact Hrange|]. split; auto.
  - unfold Audio.setVol. cbn.
    destruct (Rle_dec 0 v) as [H0 | H0]; [destruct (Rle_dec v 1) as [H1 | H1]|]; cbn.
    + split; [eexists; split; [reflexivity|]; cbn; auto|]. split; [lra|]. split; auto.
    + split; [exists a; auto|]. split; [exact Hrange|]. split; auto.
    + split; [exists a; auto|]. split; [exact Hrange|]. split; auto.
Qed.

Lemma Audio_run_snoc (events : list Audio.Event) (e : Audio.Event) (h : Audio.Hook) :
  Audio.run (events ++ [e]) h = Audio.step (Audio.run events h) e.
Proof. unfold Audio.run. now rewrite foldl_app. Qed.

Lemma Audio_run_invariant (events : list Audio.Event) :
  let h := Audio.run events (Audio.mount Audio.initial) in
  (exists a, Audio.audioRef h = Some a /\ Audio.loop a = true /\
             Audio.volume a = Audio.volumeState h /\
             Audio.paused a = negb (Audio.isPlaying h)) /\
  0 <= Audio.volumeState h <= 1 /\
  (Audio.isPlaying h = true -> Audio.audioReady h = true).
Proof.
  induction events as [|e events IH] using rev_ind; cbv zeta.
  - cbn. split; [eexists; split; [reflexivity|]; cbn; auto|]. split; [lra | discriminate].
  - rewrite Audio_run_snoc. destruct IH as (Ha & Hrange & Hready).
    destruct (Audio_step_invariant _ e Ha Hrange Hready) as (Ha' & Hrange' & Hready' & _).
    auto.
Qed.

(** X18.  Whatever the visitor does after the page is mounted (first
    click, play/pause button with a [play()] that resolves or rejects,
    volume slider), the hook and its audio element stay in step: the
    element loops, its volume is the one the hook shows and lies in
    [0, 1], it plays exactly when the hook says so, it plays only after
    the first click on the page, and that first click is never
    forgotten. *)
Theorem Audio_in_step (before after : list Audio.Event) :
  let h := Audio.run before (Audio.mount Audio.initial) in
  let h' := Audio.run after h in
  (exists a, Audio.audioRef h' = Some a /\ Audio.loop a = true /\
             Audio.volume a = Audio.volumeState h' /\
             0 <= Audio.volume a <= 1 /\
             Audio.paused a = negb (Audio.isPlaying h')) /\
  Audio.isPlaying h' && negb (Audio.audioReady h') = false /\
  Audio.audioReady h && negb (Audio.audioReady h') = false.
Proof.
  cbv zeta. induction after as [|e after IH] using rev_ind.
  - pose proof (Audio_run_invariant before) as ((a & Href & Hloop & Hvol & Hpaused) & Hrange & Hready).
    cbv zeta in *. cbn [Audio.run foldl].
    fold (Audio.run before (Audio.mount Audio.initial)).
    split.
    { exists a. rewrite Hvol. auto. }
    split.
    + destruct (Audio.isPlaying _); [rewrite Hready by reflexivity|]; reflexivity.
    + now destruct (Audio.audioReady _).
  - rewrite Audio_run_snoc.
    set (h := Audio.run before (Audio.mount Audio.initial)) in *.
    set (h1 := Audio.run after h) in *.
    destruct IH as ((a & Href & Hloop & Hvol & Hrange & Hpaused) & Hready & Hkept).
    destruct (Audio_step_invariant h1 e) as ((a' & Href' & Hloop' & Hvol' & Hpaused')
                                              & Hrange' & Hready' & Hkept').
    { exists a. auto. }
    { now rewrite <- Hvol. }
    { intros Hp. rewrite Hp in Hready. cbn in Hready.
      now destruct (Audio.audioReady h1). }
    split.
    { exists a'. rewrite Hvol'. auto. }
    split.
    + destruct (Audio.isPlaying (Audio.step h1 e)); [rewrite Hready' by reflexivity|];
        reflexivity.
    + destruct (Audio.audioReady h); [|reflexivity].
      cbn in Hkept. rewrite Hkept' by now destruct (Audio.audioReady h1).
      reflexivity.
Qed.

(** X19.  Until the first click on the page the button cannot start the
    intro: nothing plays and the hook does not say it does, however
    often the button is pressed and the volume moved. *)
Theorem Audio_locked (events : list Audio.Event) :
  Forall (fun e => e <> Audio.Unlock) events ->
  let h := Audio.run events (Audio.mount Audio.initial) in
  Audio.audioReady h = false /\ Audio.isPlaying h = false /\
  exists a, Audio.audioRef h = Some a /\ Audio.paused a = true.
Proof.
  intros Hlocked. cbv zeta.
  induction events as [|e events IH] using rev_ind.
  - cbn. split; [reflexivity|]. split; [reflexivity|]. eexists. split; reflexivity.
  - apply Forall_app in Hlocked as [Hevents He]. inversion He as [|? ? Hne _]; subst.
    rewrite Audio_run_snoc.
    destruct (IH Hevents) as (Hready & Hplaying & a & Href & Hpaused).
    destruct (Audio.run events (Audio.mount Audio.initial)) as [ref ready playing vol].
    cbn in *. subst.
    destruct e as [|resolves|v]; [contradiction| |]; cbn.
    + split; [reflexivity|]. split; [reflexivity|]. eexists. split; [reflexivity|exact Hpaused].
    + unfold Audio.setVol. cbn.
      destruct (Rle_dec 0 v); [destruct (Rle_dec v 1)|]; cbn;
        (split; [reflexivity|]; split; [reflexivity|]; eexists; split; [reflexivity|];
         cbn; exact Hpaused).
Qed.

Lemma Audio_locked_witness :
  Audio.isPlaying
    (Audio.run [Audio.Toggle true; Audio.SetVol 0.5; Audio.Toggle true]
               (Audio.mount Audio.initial)) = false.
Proof.
  refine (proj1 (proj2 (Audio_locked [Audio.Toggle true; Audio.SetVol 0.5; Audio.Toggle true]
                          _))).
  repeat constructor; discriminate.
Defined.

(** X20.  Once the page has been clicked, pressing the button twice,
    with [play()] resolving, brings the hook and the element back to
    where they were. *)
Theorem Audio_toggle_twice (events : list Audio.Event) :
  let h := Audio.run events (Audio.mount Audio.initial) in
  Audio.audioReady h = true ->
  Audio.toggle true (Audio.toggle true h) = h.
Proof.
  cbv zeta. intros Hready.
  pose proof (Audio_run_invariant events) as ((a & Href & _ & _ & Hpaused) & _ & _).
  cbv zeta in *.
  destruct (Audio.run events (Audio.mount Audio.initial)) as [ref ready playing vol].
  cbn in *. subst. destruct a as [lp v paused]. cbn in *. subst.
  unfold Audio.toggle, Audio.pause, Audio.play.
  destruct playing; reflexivity.
Qed.

Lemma Audio_toggle_twice_witness :
  let h := Audio.run [Audio.Unlock; Audio.Toggle true] (Audio.mount Audio.initial) in
  Audio.toggle true (Audio.toggle true h) = h.
Proof.
  exact (Audio_toggle_twice [Audio.Unlock; Audio.Toggle true] eq_refl).
Defined.

(** ** The tooltip *)



Lemma last_cons_default {A : Type} (l : list A) :
  forall a d d' : A, List.last (a :: l) d = List.last (a :: l) d'.
Proof.
  induction l as [|b l IH]; intros a d d'; [reflexivity|].
  change (List.last (b :: l) d = List.last (b :: l) d'). apply IH.
Qed.

Lemma CITY_names (name : string) : is_Some (CITY !! name) -> name <> ""%string.
Proof. intros [c Hc] ->. discriminate Hc. Qed.

(** X22.  Over a pin of the page, as soon as the pointer moves the
    tooltip shows the name of the pin's city, 12 pixels to the right of
    the pointer and 10 above it, and it follows every further move. *)
Theorem tooltip_follows_pointer (route : list string) (radius : R) (p : Pin.t)
    (h : Hover.t) (x y : R) (moves : list (R * R)) :
  p ∈ buildPins route CITY radius ->
  let over := Hover.onPointerMove x y (Hover.onPointerOver p h) in
  Hover.tooltip over = Some (Pin.name p, x + 12, y - 10) /\
  Hover.tooltip (Hover.run ((fun m => Hover.Move m.1 m.2) <$> moves) over)
    = Some (Pin.name p, (List.last moves (x, y)).1 + 12, (List.last moves (x, y)).2 - 10).
Proof.
  intros Hp. apply buildPins_elem in Hp as (c & _ & Hc & _).
  assert (Hname : Hover.truthy (Some (Pin.name p)) = true).
  { cbn. apply negb_true_iff. apply String.eqb_neq. apply CITY_names. eauto. }
  cbv zeta.
  assert (Hover0 : Hover.onPointerMove x y (Hover.onPointerOver p h)
                   = Hover.mk (Some (Pin.name p)) (Some (x, y)) "pointer").
  { unfold Hover.onPointerMove, Hover.onPointerOver, Hover.onHoverCity.
    cbn [Hover.hoverCity Hover.hoverPos2D Hover.cursor]. now rewrite Hname. }
  rewrite Hover0. clear Hover0.
  assert (Hshown : forall x y, Hover.tooltip (Hover.mk (Some (Pin.name p)) (Some (x, y)) "pointer")
                               = Some (Pin.name p, x + 12, y - 10)).
  { intros x' y'. unfold Hover.tooltip. cbn [Hover.hoverCity Hover.hoverPos2D].
    now rewrite Hname. }
  split; [apply Hshown|].
  revert x y. induction moves as [|[x' y'] moves IH]; intros x y.
  - cbn. apply Hshown.
  - cbn [fmap list_fmap Hover.run foldl Hover.step fst snd].
    unfold Hover.onPointerMove. cbn [Hover.hoverCity Hover.cursor]. rewrite Hname.
    specialize (IH x' y'). unfold Hover.run in IH. rewrite IH.
    destruct moves as [|m moves]; [reflexivity|].
    change (List.last ((x', y') :: m :: moves) (x, y)) with (List.last (m :: moves) (x, y)).
    now rewrite (last_cons_default moves m (x, y) (x', y')).
Qed.

(** The pin of Paris, the pointer entering at (400, 300) and moving on
    to (410, 305). *)
Lemma tooltip_follows_pointer_witness :
  Hover.tooltip
    (Hover.run [Hover.Over (Pin.new "Paris" (latLonToVec3 48.8566 2.3522 (1.25 * 1.012)));
                Hover.Move 400 300; Hover.Move 410 305]
               Hover.initial)
  = Some ("Paris"%string, 410 + 12, 305 - 10).
Proof.
  assert (Hp : Pin.new "Paris" (latLonToVec3 48.8566 2.3522 (1.25 * 1.012))
               ∈ buildPins ROUTE CITY 1.25).
  { apply buildPins_elem. exists (mkCity 48.8566 2.3522).
    split; [repeat constructor | split; reflexivity]. }
  exact (proj2 (tooltip_follows_pointer ROUTE 1.25 _ Hover.initial 400 300 [(410, 305)] Hp)).
Defined.
